(** * The LSM segment group (package lsmkv): a shallow embedding

    The development follows [SegmentGroup] of the lsmkv package: the
    start-up recovery of the segment directory, the reader path over the
    ordered stack of segments, append, shutdown and the maintenance tick.

    Conventions of the embedding:
    - a Go [[]byte] that may be [nil] is an [option bytes], [None] being
      [nil]; a Go [error] that may be [nil] is an [option error];
    - a Go function that may panic returns an [outcome];
    - the slice [sg.segments] of segment pointers is a
      [list (option segment)], [None] being a [nil] pointer; a [nil]
      slice and an empty one are both [[]] (the code only takes [len],
      ranges and appends, which do not tell them apart);
    - the locks, the logger and the metrics sink have no effect on the
      values computed and are left out. *)

From Stdlib Require Import ZArith Lia Ascii String Strings.Byte.
From stdpp Require Import base option list strings gmap sorting.

Open Scope Z_scope.

(** ** Go's [errors], [strings], [path/filepath], [fmt] and [time] *)

Module Go.

(** An error value: the two sentinels of entities/lsmkv, an opaque error
    with its text, and [fmt.Errorf("...: %w", err)]. *)
Inductive error : Type :=
| NotFound
| Deleted
| ErrMsg (msg : string)
| ErrWrap (msg : string) (cause : error).

#[global] Instance error_eq_dec : EqDecision error.
Proof. solve_decision. Defined.

(** [errors.Is]: [err] or an error in its chain of causes is [target]. *)
Fixpoint errors_Is (err target : error) : bool :=
  if decide (err = target) then true
  else match err with
       | ErrWrap _ cause => errors_Is cause target
       | _ => false
       end.

(** The causes of a run-time panic met in this package. *)
Inductive panic : Type :=
| UnsupportedError (err : error)
| IndexOutOfRange
| NilDereference.

Inductive outcome (A : Type) : Type :=
| Return (a : A)
| Panic (p : panic).
Arguments Return {A} a.
Arguments Panic {A} p.

(** The suffix of [s] that starts at its last ['.'] or ['/']. *)
Fixpoint lastDotOrSlash (s : string) : option string :=
  match s with
  | EmptyString => None
  | String c r =>
      match lastDotOrSlash r with
      | Some t => Some t
      | None =>
          if bool_decide (c = "."%char \/ c = "/"%char)
          then Some (String c r) else None
      end
  end.

(** [filepath.Ext]: scanning backwards, the suffix from the last dot of
    the last path element; empty when a separator comes first. *)
Definition filepath_Ext (path : string) : string :=
  match lastDotOrSlash path with
  | Some (String c r) => if decide (c = "."%char) then String c r else ""
  | _ => ""
  end.

(** [strings.TrimSuffix]. *)
Fixpoint strings_TrimSuffix (s suffix : string) : string :=
  if decide (s = suffix) then ""
  else match s with
       | EmptyString => ""
       | String c r => String c (strings_TrimSuffix r suffix)
       end.

(** [strings.TrimPrefix]. *)
Fixpoint dropPrefix (s prefix : string) : option string :=
  match prefix, s with
  | EmptyString, _ => Some s
  | String p prefix', String c r =>
      if decide (p = c) then dropPrefix r prefix' else None
  | String _ _, EmptyString => None
  end.

Definition strings_TrimPrefix (s prefix : string) : string :=
  default s (dropPrefix s prefix).

(** [strings.Split] for a separator of one byte (the package only
    splits on ["_"]): all the fields between separators, at least one. *)
Fixpoint strings_Split (s : string) (sep : ascii) : list string :=
  match s with
  | EmptyString => [""]
  | String c r =>
      if decide (c = sep) then "" :: strings_Split r sep
      else match strings_Split r sep with
           | x :: xs => String c x :: xs
           | [] => [String c ""]
           end
  end.

(** [time.Duration] is an [int64] of nanoseconds. *)
Definition maxDuration : Z := 2 ^ 63 - 1.
Definition minDuration : Z := - 2 ^ 63.
Definition time_Hour : Z := 3600 * 1000000000.

(** [Time.Sub]: the difference of two instants (in nanoseconds),
    saturated to the range of a [Duration]. *)
Definition time_Sub (t u : Z) : Z :=
  if decide (t - u > maxDuration) then maxDuration
  else if decide (t - u < minDuration) then minDuration
  else t - u.

(** [Time.Before]. *)
Definition time_Before (t u : Z) : bool := bool_decide (t < u).

End Go.
Export Go.


(** ** Segments, as the group sees them *)

Section Segments.
Context {value : Type}.

Definition bytes : Type := list byte.

(** A value of type [existsOnLowerSegmentsFn]. The closure returned by
    [sg.makeExistsOnLower(nextSegmentIndex)] captures the group and the
    index, and reads the group's segments when it is called: it is kept
    as the captured index. Any other function value is kept as it is. *)
Inductive existsOnLowerSegmentsFn : Type :=
| ExistsOnLowerOf (nextSegmentIndex : nat)
| ExistsOnLowerFn (f : bytes -> bool * option error).

(** What a file of the directory holds, read as a segment: the error
    [newSegment] reports when it cannot be read as one, and the answers
    of the (immutable) segment to the calls the group makes. *)
Record file : Type := File {
  file_open : option error;
  file_get : bytes -> option bytes * option error;
  file_getCollection : bytes -> list value * option error;
  file_close : option error;
  file_countNetAdditions : Z;
}.

(** A segment handle: its path, the predicate it was constructed with
    and the table it was opened on. *)
Record segment : Type := Segment {
  path : string;
  existsOnLower : existsOnLowerSegmentsFn;
  contents : file;
}.

Definition segment_get (s : segment) (key : bytes) : option bytes * option error :=
  file_get (contents s) key.
Definition segment_getCollection (s : segment) (key : bytes) : list value * option error :=
  file_getCollection (contents s) key.
Definition segment_close (s : segment) : option error :=
  file_close (contents s).
Definition countNetAdditions (s : segment) : Z :=
  file_countNetAdditions (contents s).

(** ** The reader path *)

(** The loop of [getWithUpperSegmentBoundary], at index [i] and going
    down to index 0. *)
Fixpoint getFrom (segments : list (option segment)) (key : bytes) (i : nat)
  : outcome (option bytes * option error) :=
  match segments !! i with
  | None => Panic IndexOutOfRange
  | Some None => Panic NilDereference
  | Some (Some s) =>
      let '(v, err) := segment_get s key in
      match err with
      | Some e =>
          if errors_Is e NotFound then
            match i with
            | O => Return (None, None)
            | S i' => getFrom segments key i'
            end
          else if errors_Is e Deleted then Return (None, None)
          else Panic (UnsupportedError e)
      | None => Return (v, None)
      end
  end.

Definition getWithUpperSegmentBoundary (segments : list (option segment))
  (key : bytes) (topMostSegment : Z) : outcome (option bytes * option error) :=
  if decide (topMostSegment >= 0)
  then getFrom segments key (Z.to_nat topMostSegment)
  else Return (None, None).

Definition get (segments : list (option segment)) (key : bytes)
  : outcome (option bytes * option error) :=
  getWithUpperSegmentBoundary segments key (Z.of_nat (length segments) - 1).

(** The loop of [getWithUpperSegmentBoundaryErrDeleted]. *)
Fixpoint getFromErrDeleted (segments : list (option segment)) (key : bytes) (i : nat)
  : outcome (option bytes * option error) :=
  match segments !! i with
  | None => Panic IndexOutOfRange
  | Some None => Panic NilDereference
  | Some (Some s) =>
      let '(v, err) := segment_get s key in
      match err with
      | Some e =>
          if errors_Is e NotFound then
            match i with
            | O => Return (None, Some NotFound)
            | S i' => getFromErrDeleted segments key i'
            end
          else if errors_Is e Deleted then Return (None, Some e)
          else Panic (UnsupportedError e)
      | None => Return (v, None)
      end
  end.

Definition getWithUpperSegmentBoundaryErrDeleted (segments : list (option segment))
  (key : bytes) (topMostSegment : Z) : outcome (option bytes * option error) :=
  if decide (topMostSegment >= 0)
  then getFromErrDeleted segments key (Z.to_nat topMostSegment)
  else Return (None, Some NotFound).

Definition getErrDeleted (segments : list (option segment)) (key : bytes)
  : outcome (option bytes * option error) :=
  getWithUpperSegmentBoundaryErrDeleted segments key (Z.of_nat (length segments) - 1).

(** The loop of [getCollection] over the segments left to visit, [out]
    being the values gathered so far. *)
Fixpoint getCollectionFrom (rest : list (option segment)) (key : bytes)
  (out : list value) : outcome (list value * option error) :=
  match rest with
  | [] => Return (out, None)
  | None :: _ => Panic NilDereference
  | Some s :: rest' =>
      let '(v, err) := segment_getCollection s key in
      match err with
      | Some e =>
          if errors_Is e NotFound then getCollectionFrom rest' key out
          else Return ([], Some e)
      | None =>
          getCollectionFrom rest' key
            (if decide (length out = 0%nat) then v else out ++ v)
      end
  end.

Definition getCollection (segments : list (option segment)) (key : bytes)
  : outcome (list value * option error) :=
  getCollectionFrom segments key [].

(** *** What the walks are compared with *)

(** The segment answers [NotFound] for the key. *)
Definition reportsNotFound (s : segment) (key : bytes) : bool :=
  match segment_get s key with
  | (_, Some e) => errors_Is e NotFound
  | (_, None) => false
  end.

(** What the walk answers when it stops at [s], and [below] when it
    goes on to the older segments. *)
Definition answerOf (s : segment) (key : bytes) (below : outcome (option bytes * option error))
  : outcome (option bytes * option error) :=
  match segment_get s key with
  | (v, None) => Return (v, None)
  | (_, Some e) =>
      if errors_Is e NotFound then below
      else if errors_Is e Deleted then Return (None, None)
      else Panic (UnsupportedError e)
  end.

(** The same for the walk of [getErrDeleted]. *)
Definition answerOfErrDeleted (s : segment) (key : bytes) (below : outcome (option bytes * option error))
  : outcome (option bytes * option error) :=
  match segment_get s key with
  | (v, None) => Return (v, None)
  | (_, Some e) =>
      if errors_Is e NotFound then below
      else if errors_Is e Deleted then Return (None, Some e)
      else Panic (UnsupportedError e)
  end.

(** The values a segment gives for a collection key, none when it
    reports an error. *)
Definition collected (s : segment) (key : bytes) : list value :=
  match segment_getCollection s key with
  | (v, None) => v
  | (_, Some _) => []
  end.

(** The segment holds the key or reports that it does not. *)
Definition collectionOk (s : segment) (key : bytes) : Prop :=
  match segment_getCollection s key with
  | (_, None) => True
  | (_, Some e) => errors_Is e NotFound = true
  end.

(** [makeExistsOnLower(nextSegmentIndex)], called on [key] while the
    group holds [segments]. *)
Definition makeExistsOnLower (segments : list (option segment))
  (nextSegmentIndex : nat) (key : bytes) : outcome (bool * option error) :=
  if decide (nextSegmentIndex = 0%nat) then Return (false, None)
  else
    match getWithUpperSegmentBoundary segments key (Z.of_nat nextSegmentIndex - 1) with
    | Panic p => Panic p
    | Return (v, Some err) =>
        Return (false, Some (ErrWrap "check exists on segments lower than" err))
    | Return (v, None) => Return (bool_decide (v <> None), None)
    end.

(** Calling the predicate a segment holds. *)
Definition callExistsOnLower (segments : list (option segment))
  (fn : existsOnLowerSegmentsFn) (key : bytes) : outcome (bool * option error) :=
  match fn with
  | ExistsOnLowerOf i => makeExistsOnLower segments i key
  | ExistsOnLowerFn f => Return (f key)
  end.

(** ** The directory and the calls that touch it *)

(** The group is bound to one directory, and every path it builds is
    [filepath.Join(sg.dir, name)]: a path is kept as the name of the
    entry within that directory. *)
Inductive io_op : Type :=
| OpReadDir
| OpStat (name : string)
| OpRemove (name : string)
| OpRename (oldname newname : string)
| OpFsync
| OpNewSegment (name : string) (overwriteDerived : bool)
| OpClose (name : string)
| OpDropImmediately (name : string)
| OpNewSegmentCleaner.

(** The world outside the group: the files of the directory, the clock,
    the I/O errors the environment answers to a call (none for a call
    that goes through), and the calls made so far, oldest first. *)
Record world : Type := World {
  files : gmap string file;
  now : Z;
  faults : io_op -> option error;
  trace : list io_op;
}.

Definition logged (op : io_op) (w : world) : world :=
  World (files w) (now w) (faults w) (trace w ++ [op]).

Definition with_files (fs : gmap string file) (w : world) : world :=
  World fs (now w) (faults w) (trace w).

(** [os.ReadDir]: the entries of the directory, sorted by name. *)
Definition os_ReadDir (w : world) : (list string * option error) * world :=
  match faults w OpReadDir with
  | Some e => (([], Some e), logged OpReadDir w)
  | None =>
      ((merge_sort String.le (elements (dom (files w))), None), logged OpReadDir w)
  end.

(** [fileExists], on [os.Stat]: a missing file is not an error. *)
Definition fileExists (name : string) (w : world) : (bool * option error) * world :=
  match faults w (OpStat name) with
  | Some e => ((false, Some e), logged (OpStat name) w)
  | None => ((bool_decide (is_Some (files w !! name)), None), logged (OpStat name) w)
  end.

(** [os.Remove]. *)
Definition os_Remove (name : string) (w : world) : option error * world :=
  match faults w (OpRemove name) with
  | Some e => (Some e, logged (OpRemove name) w)
  | None =>
      match files w !! name with
      | None => (Some (ErrMsg "remove: no such file or directory"), logged (OpRemove name) w)
      | Some _ => (None, with_files (delete name (files w)) (logged (OpRemove name) w))
      end
  end.

(** [os.Rename]: the new name is replaced when it exists. *)
Definition os_Rename (oldname newname : string) (w : world) : option error * world :=
  match faults w (OpRename oldname newname) with
  | Some e => (Some e, logged (OpRename oldname newname) w)
  | None =>
      match files w !! oldname with
      | None =>
          (Some (ErrMsg "rename: no such file or directory"),
           logged (OpRename oldname newname) w)
      | Some f =>
          (None, with_files (<[newname := f]> (delete oldname (files w)))
                   (logged (OpRename oldname newname) w))
      end
  end.

(** [fsync] of the directory. *)
Definition fsync (w : world) : option error * world :=
  (faults w OpFsync, logged OpFsync w).

(** Modelled from the spec: [newSegment] is declared in another file of
    the package. It opens the file at [path] as a segment, which can fail; the
    handle it returns holds its file path and the [exists_on_lower]
    predicate it was constructed with (section 3 of the specification).
    The flags it is passed ([mmapContents], [useBloomFilter],
    [calcCountNetAdditions]) do not change what the group does. *)
Definition newSegment (name : string) (fn : existsOnLowerSegmentsFn)
  (overwriteDerived : bool) (w : world) : (option segment * option error) * world :=
  let w' := logged (OpNewSegment name overwriteDerived) w in
  match faults w (OpNewSegment name overwriteDerived) with
  | Some e => ((None, Some e), w')
  | None =>
      match files w !! name with
      | None => ((None, Some (ErrMsg "open: no such file or directory")), w')
      | Some f =>
          match file_open f with
          | Some e => ((None, Some e), w')
          | None => ((Some (Segment name fn f), None), w')
          end
      end
  end.

(** Modelled from the spec: [segment.dropImmediately] is declared in
    another file of the package; it removes the file of the segment right away
    (section 4.1 of the specification, [close] / [drop_immediately]). *)
Definition dropImmediately (s : segment) (w : world) : option error * world :=
  match faults w (OpDropImmediately (path s)) with
  | Some e => (Some e, logged (OpDropImmediately (path s)) w)
  | None =>
      (None, with_files (delete (path s) (files w))
               (logged (OpDropImmediately (path s)) w))
  end.

(** ** Append *)

(** [add]: the error returned, the segments of the group after the
    call, and the world. *)
Definition add (segments : list (option segment)) (name : string) (w : world)
  : option error * list (option segment) * world :=
  let newSegmentIndex := length segments in
  match newSegment name (ExistsOnLowerOf newSegmentIndex) true w with
  | ((_, Some err), w') => (Some (ErrWrap "init segment" err), segments, w')
  | ((seg, None), w') => (None, segments ++ [seg], w')
  end.

(** [addInitializedSegment], given the pointer to a segment. *)
Definition addInitializedSegment (segments : list (option segment))
  (seg : option segment) : option error * list (option segment) :=
  (None, segments ++ [seg]).

(** ** Shutdown *)

(** What the collaborators of [shutdown] answer: the cycle manager on
    [Unregister(ctx)], the context on [Err()], the cleaner on [close()]. *)
Record shutdownEnv : Type := ShutdownEnv {
  unregister : option error;
  ctx_Err : option error;
  segmentCleaner_close : option error;
}.

(** The loop of [shutdown], at index [i] with [rng] the elements still
    to be ranged over (the loop writes slot [i] only after it has read
    it, so the elements read are those the slice held at the start): the
    error returned, the slots of [sg.segments] and the segments whose
    [close] went through, in that order. *)
Fixpoint shutdownFrom (i : nat) (rng : list (option segment))
  (segments : list (option segment)) (closed : list segment)
  : outcome (option error * list (option segment) * list segment) :=
  match rng with
  | [] => Return (None, [], closed)
  | None :: _ => Panic NilDereference
  | Some seg :: rng' =>
      match segment_close seg with
      | Some err => Return (Some err, segments, closed)
      | None => shutdownFrom (S i) rng' (<[i := None]> segments) (closed ++ [seg])
      end
  end.

Definition shutdown (env : shutdownEnv) (segments : list (option segment))
  : outcome (option error * list (option segment) * list segment) :=
  match unregister env with
  | Some _ =>
      Return (Some (match ctx_Err env with
                    | Some e => ErrWrap "long-running compaction in progress" e
                    | None => ErrMsg "long-running compaction in progress"
                    end), segments, [])
  | None =>
      match segmentCleaner_close env with
      | Some err => Return (Some err, segments, [])
      | None => shutdownFrom 0 segments segments []
      end
  end.

End Segments.

Arguments file : clear implicits.
Arguments segment : clear implicits.
Arguments world : clear implicits.

(** ** The maintenance tick *)

Inductive action : Type := Compaction | Cleanup.

Section Maintenance.
(** The state the two passes work on (segments, directory, clock) is
    left abstract, with the clock read by [time.Now()] and the two
    passes of the collaborators. *)
Context {W : Type}.
Context (time_Now : W -> Z).
Context (compactOnce : W -> (bool * option error) * W).
Context (cleanupOnce : W -> (bool * option error) * W).

(** The fields of the group the tick reads and writes, and the passes
    it has called, oldest first. *)
Record maintenance : Type := Maintenance {
  lastCleanupCall : Z;
  lastCompactionCall : Z;
  m_world : W;
  calls : list action;
}.

(** The closure [compact] of [compactOrCleanup]. *)
Definition compact (m : maintenance) : bool * maintenance :=
  let t := time_Now (m_world m) in
  let '((compacted, err), w') := compactOnce (m_world m) in
  (compacted, Maintenance (lastCleanupCall m) t w' (calls m ++ [Compaction])).

(** The closure [cleanup] of [compactOrCleanup]. *)
Definition cleanup (m : maintenance) : bool * maintenance :=
  let t := time_Now (m_world m) in
  let '((cleaned, err), w') := cleanupOnce (m_world m) in
  (cleaned, Maintenance t (lastCompactionCall m) w' (calls m ++ [Cleanup])).

Definition forceCleanupInterval : Z := time_Hour * 12.

(** The test that puts cleanup first. *)
Definition cleanupFirst (m : maintenance) : bool :=
  bool_decide (time_Sub (time_Now (m_world m)) (lastCleanupCall m) > forceCleanupInterval)
  && time_Before (lastCleanupCall m) (lastCompactionCall m).

(** [compactOrCleanup]; [monitorSegments], which only feeds the
    metrics, is left out. *)
Definition compactOrCleanup (m : maintenance) : bool * maintenance :=
  if cleanupFirst m then
    let '(cleaned, m1) := cleanup m in
    if cleaned then (true, m1) else compact m1
  else
    let '(compacted, m1) := compact m in
    if compacted then (true, m1) else cleanup m1.

End Maintenance.

Arguments maintenance : clear implicits.

(** ** Recovery of the directory: [newSegmentGroup] *)

(** The state of [newSegmentGroup] while it runs: the world, the slice
    [sg.segments] (made with one slot per directory entry),
    [segmentIndex] and [segmentsAlreadyRecoveredFromCompaction]. *)
Record recovery (value : Type) : Type := Recovery {
  rec_world : world value;
  rec_segments : list (option (segment value));
  segmentIndex : nat;
  segmentsAlreadyRecoveredFromCompaction : gset string;
}.
Arguments Recovery {value} _ _ _ _.
Arguments rec_world {value} _.
Arguments rec_segments {value} _.
Arguments segmentIndex {value} _.
Arguments segmentsAlreadyRecoveredFromCompaction {value} _.

(** A step of the recovery goes on with a value, or returns
    [(nil, err)] from [newSegmentGroup], or panics; the state reached is
    kept in the first two cases, the directory staying as it was left. *)
Inductive result (value A : Type) : Type :=
| Ok (a : A) (st : recovery value)
| Fail (err : error) (st : recovery value)
| Crash (p : panic).
Arguments Ok {value A} a st.
Arguments Fail {value A} err st.
Arguments Crash {value A} p.

Definition M (value A : Type) : Type := recovery value -> result value A.

#[global] Instance M_ret {value} : MRet (M value) := fun A a st => Ok a st.
#[global] Instance M_bind {value} : MBind (M value) := fun A B f m st =>
  match m st with
  | Ok a st' => f a st'
  | Fail e st' => Fail e st'
  | Crash p => Crash p
  end.

Section Recovery.
Context {value : Type}.
(** [segmentID] and the constant [DeleteMarkerSuffix] are declared in
    other files of the package: they are parameters here. *)
Context (segmentID : string -> string).
Context (DeleteMarkerSuffix : string).

(** A call on the world whose error, if any, is returned from
    [newSegmentGroup] as [fmt.Errorf(msg + ": %w", err)]. *)
Definition try_io {A} (msg : string) (f : world value -> (A * option error) * world value)
  : M value A := fun st =>
  let '((a, err), w') := f (rec_world st) in
  let st' := Recovery w' (rec_segments st) (segmentIndex st)
               (segmentsAlreadyRecoveredFromCompaction st) in
  match err with
  | Some e => Fail (ErrWrap msg e) st'
  | None => Ok a st'
  end.

Definition unit_io (f : world value -> option error * world value)
  : world value -> (unit * option error) * world value :=
  fun w => let '(err, w') := f w in ((tt, err), w').

(** [sg.segments[segmentIndex] = segment; segmentIndex++]. *)
Definition storeSegment (seg : option (segment value)) : M value unit := fun st =>
  if decide (segmentIndex st < length (rec_segments st))%nat then
    Ok tt (Recovery (rec_world st) (<[segmentIndex st := seg]> (rec_segments st))
             (S (segmentIndex st)) (segmentsAlreadyRecoveredFromCompaction st))
  else Crash IndexOutOfRange.

Definition markRecovered (name : string) : M value unit := fun st =>
  Ok tt (Recovery (rec_world st) (rec_segments st) (segmentIndex st)
           ({[ name ]} ∪ segmentsAlreadyRecoveredFromCompaction st)).

Definition fail_with {A} (err : error) : M value A := fun st => Fail err st.

Definition get_state : M value (recovery value) := fun st => Ok st st.

Definition segmentFilename (id : string) : string := "segment-" +:+ id +:+ ".db".

(** The body of the first loop of [newSegmentGroup], for one entry. *)
Definition recoverCompacted (name : string) : M value unit :=
  if decide (filepath_Ext name ≠ ".tmp") then mret tt else
  let potentialCompactedSegmentFileName := strings_TrimSuffix name ".tmp" in
  if decide (filepath_Ext potentialCompactedSegmentFileName ≠ ".db") then mret tt else
  let jointSegmentsIDs :=
    strings_Split (segmentID potentialCompactedSegmentFileName) "_" in
  if decide (length jointSegmentsIDs = 1%nat) then
    try_io "delete partially cleaned segment" (unit_io (os_Remove name))
  else if decide (length jointSegmentsIDs ≠ 2%nat) then mret tt
  else
    let leftSegmentFilename := segmentFilename (jointSegmentsIDs !!! 0%nat) in
    let rightSegmentFilename := segmentFilename (jointSegmentsIDs !!! 1%nat) in
    leftSegmentFound ←
      try_io "check for presence of segment" (fileExists leftSegmentFilename);
    rightSegmentFound ←
      try_io "check for presence of segment" (fileExists rightSegmentFilename);
    if leftSegmentFound && rightSegmentFound then
      try_io "delete partially compacted segment" (unit_io (os_Remove name))
    else if leftSegmentFound && negb rightSegmentFound then
      fail_with (ErrMsg ("missing right segment " +:+ rightSegmentFilename))
    else
      (if negb leftSegmentFound && rightSegmentFound then
         st ← get_state;
         rightSegment ←
           try_io "init already compacted right segment"
             (newSegment rightSegmentFilename (ExistsOnLowerOf (segmentIndex st)) false);
         match rightSegment with
         | None => fun _ => Crash NilDereference
         | Some seg =>
             try_io "close already compacted right segment"
               (fun w => ((tt, segment_close seg), logged (OpClose (path seg)) w));;
             try_io "delete already compacted right segment"
               (unit_io (dropImmediately seg));;
             try_io "fsync segment directory" (unit_io fsync)
         end
       else mret tt);;
      try_io "rename compacted segment file" (unit_io (os_Rename name rightSegmentFilename));;
      st ← get_state;
      seg ← try_io "init segment"
              (newSegment rightSegmentFilename (ExistsOnLowerOf (segmentIndex st)) true);
      storeSegment seg;;
      markRecovered rightSegmentFilename.

(** The body of the second loop of [newSegmentGroup], for one entry. *)
Definition recoverSegment (name : string) : M value unit :=
  if decide (filepath_Ext name = DeleteMarkerSuffix) then
    fun st =>
      let '(_, w') := os_Remove name (rec_world st) in
      Ok tt (Recovery w' (rec_segments st) (segmentIndex st)
               (segmentsAlreadyRecoveredFromCompaction st))
  else if decide (filepath_Ext name ≠ ".db") then mret tt
  else
    st ← get_state;
    if decide (name ∈ segmentsAlreadyRecoveredFromCompaction st) then mret tt
    else
      let walFileName := strings_TrimSuffix name ".db" +:+ ".wal" in
      ok ← try_io "check for presence of wals for segment" (fileExists walFileName);
      if (ok : bool) then
        try_io "delete partially written segment" (unit_io (os_Remove name))
      else
        st ← get_state;
        seg ← try_io "init segment"
                (newSegment name (ExistsOnLowerOf (segmentIndex st)) false);
        storeSegment seg.

(** A [for ... range list] loop whose body is [body]. *)
Fixpoint forEach (body : string -> M value unit) (list : list string) : M value unit :=
  match list with
  | [] => mret tt
  | entry :: rest => body entry;; forEach body rest
  end.

(** The group as [newSegmentGroup] returns it: its segments and the two
    instants of the maintenance tick (the configuration copied from
    [sgConfig] is left out). *)
Record SegmentGroup : Type := mkSegmentGroup {
  segments : list (option (segment value));
  sg_lastCompactionCall : Z;
  sg_lastCleanupCall : Z;
}.

(** [newSegmentCleaner(sg)], of which only a failure matters here; its
    error is returned as it is. *)
Definition newSegmentCleaner : M value unit := fun st =>
  let w' := logged OpNewSegmentCleaner (rec_world st) in
  let st' := Recovery w' (rec_segments st) (segmentIndex st)
               (segmentsAlreadyRecoveredFromCompaction st) in
  match faults (rec_world st) OpNewSegmentCleaner with
  | Some e => Fail e st'
  | None => Ok tt st'
  end.

(** [newSegmentGroup] on the directory of [w]. Publishing the count to
    the metrics and registering the tick with the cycle manager change
    nothing of what is returned. *)
Definition newSegmentGroup : world value -> result value SegmentGroup := fun w =>
  let '((list, err), w0) := os_ReadDir w in
  match err with
  | Some e => Fail e (Recovery w0 [] 0 ∅)
  | None =>
      let t := now w0 in
      let st0 := Recovery w0 (replicate (length list) None) 0 ∅ in
      (forEach recoverCompacted list;;
       forEach recoverSegment list;;
       st ← get_state;
       let sgSegments := take (segmentIndex st) (rec_segments st) in
       newSegmentCleaner;;
       mret (mkSegmentGroup sgSegments t t)) st0
  end.

(** What [newSegmentGroup] does once its first loop is over: the second
    loop over the same listing, the slice cut at [segmentIndex], the
    cleaner, and the group it returns. *)
Definition afterFirstLoop (list : list string) (t : Z) : M value SegmentGroup :=
  forEach recoverSegment list;;
  st ← get_state;
  let sgSegments := take (segmentIndex st) (rec_segments st) in
  newSegmentCleaner;;
  mret (mkSegmentGroup sgSegments t t).

End Recovery.

(** Modelled from the spec: [segmentID] is declared in another file of
    the package; the specification has the stem [segment-<A>_<B>] of a file
    name give the IDs, so the prefix [segment-] and the extension [.db]
    are taken off. *)
Definition segmentID_spec (name : string) : string :=
  strings_TrimSuffix (strings_TrimPrefix name "segment-") ".db".

(** ** Segments to run the group on *)

#[global] Instance byte_eq_dec : EqDecision byte := Byte.byte_eq_dec.

Definition key_k : bytes := ["k"%byte].
Definition val_v1 : bytes := ["v"%byte; "1"%byte].

(** A table without any key. *)
Definition emptyTable : file string :=
  File None (fun _ => (None, Some NotFound)) (fun _ => ([], Some NotFound)) None 0.

(** A table that holds value [v] and the collection [vs] under [k]. *)
Definition tableWith (k v : bytes) (vs : list string) : file string :=
  File None
    (fun key => if decide (key = k) then (Some v, None) else (None, Some NotFound))
    (fun key => if decide (key = k) then (vs, None) else ([], Some NotFound))
    None 1.

(** A table that holds a tombstone for [k]. *)
Definition tableWithTombstone (k : bytes) : file string :=
  File None
    (fun key => if decide (key = k) then (None, Some Deleted) else (None, Some NotFound))
    (fun key => if decide (key = k) then ([], None) else ([], Some NotFound))
    None (-1).

(** A table whose reads and whose [close] fail. *)
Definition brokenTable : file string :=
  File None (fun _ => (None, Some (ErrMsg "read: input/output error")))
    (fun _ => ([], Some (ErrMsg "read: input/output error")))
    (Some (ErrMsg "close: input/output error")) 0.

Definition seg_empty : segment string :=
  Segment "segment-03.db" (ExistsOnLowerOf 2) emptyTable.
Definition seg_v1 : segment string :=
  Segment "segment-01.db" (ExistsOnLowerOf 0) (tableWith key_k val_v1 ["a"; "b"]).
Definition seg_tombstone : segment string :=
  Segment "segment-02.db" (ExistsOnLowerOf 1) (tableWithTombstone key_k).
Definition seg_broken : segment string :=
  Segment "segment-04.db" (ExistsOnLowerOf 3) brokenTable.

(** A directory with one more segment file. *)
Definition world_05 : world string :=
  World {[ "segment-05.db" := tableWith key_k val_v1 [] ]} 100 (fun _ => None) [].

(** A pass that finds nothing to do and takes a second. *)
Definition idlePass (w : Z) : (bool * option error) * Z :=
  ((false, None), w + 1000000000).

(** The directory of scenario S2: a segment and the log of its flush. *)
Definition world_S2 : world string :=
  World {[ "segment-02.db" := tableWith key_k val_v1 [];
           "segment-02.wal" := emptyTable ]} 100 (fun _ => None) [].

(** The directory of scenario S4: the output of a compaction alone. *)
Definition world_S4 : world string :=
  World {[ "segment-01_02.db.tmp" := tableWith key_k val_v1 [] ]} 100 (fun _ => None) [].

(** The paths of the segments of a group, [nil] slots left out. *)
Definition segmentPaths {value} (sg : @SegmentGroup value) : list string :=
  omap (fun seg => path <$> seg) (segments sg).

(** A directory of files that all hold the same table. *)
Definition directoryOf (names : list string) : world string :=
  World (list_to_map ((fun n => (n, tableWith key_k val_v1 [])) <$> names))
    100 (fun _ => None) [].

(** What a run of the recovery gives: the paths of the segments of the
    group and the names left in the directory, or the error. *)
Definition recovered (w : world string) : (list string * list string) + error + panic :=
  match newSegmentGroup segmentID_spec ".deleteme" w with
  | Ok sg st =>
      inl (inl (segmentPaths sg,
                merge_sort String.le (elements (dom (files (rec_world st))))))
  | Fail e _ => inl (inr e)
  | Crash p => inr p
  end.

(** ** The other readers of the group *)

(** [int] is 64 bits wide: the value of a sum that went over. *)
Definition wrap_int (z : Z) : Z := (z + 2 ^ 63) mod 2 ^ 64 - 2 ^ 63.

Section OtherReaders.
Context {value : Type}.
(** The methods and the field of a segment that these readers use are
    declared in other files of the package: what a segment answers on
    them is a parameter, as are the type of a bitmap layer and the
    constant [segmentindex.StrategyInverted]. *)
Context {BitmapLayer : Type}.
Context (segment_getBySecondaryIntoMemory :
           segment value -> Z -> bytes -> option bytes ->
           (option bytes * option bytes * option bytes) * option error).
Context (segment_roaringSetGet : segment value -> bytes -> BitmapLayer * option error).
Context (strategy : segment value -> Z).
Context (StrategyInverted : Z).

(** The loop of [getBySecondaryIntoMemory], at index [i] and going down
    to index 0. *)
Fixpoint getBySecondaryFrom (segments : list (option (segment value)))
  (pos : Z) (key : bytes) (buffer : option bytes) (i : nat)
  : outcome ((option bytes * option bytes * option bytes) * option error) :=
  match segments !! i with
  | None => Panic IndexOutOfRange
  | Some None => Panic NilDereference
  | Some (Some s) =>
      let '(kvb, err) := segment_getBySecondaryIntoMemory s pos key buffer in
      match err with
      | Some e =>
          if errors_Is e NotFound then
            match i with
            | O => Return ((None, None, None), None)
            | S i' => getBySecondaryFrom segments pos key buffer i'
            end
          else if errors_Is e Deleted then Return ((None, None, None), None)
          else Panic (UnsupportedError e)
      | None => Return (kvb, None)
      end
  end.

Definition getBySecondaryIntoMemory (segments : list (option (segment value)))
  (pos : Z) (key : bytes) (buffer : option bytes)
  : outcome ((option bytes * option bytes * option bytes) * option error) :=
  if decide (Z.of_nat (length segments) - 1 >= 0)
  then getBySecondaryFrom segments pos key buffer
         (Z.to_nat (Z.of_nat (length segments) - 1))
  else Return ((None, None, None), None).

(** The state of the loop of [getCollectionAndSegments]: the two slices
    made with one slot per segment, and the index [i]. *)
Fixpoint getCollectionAndSegmentsFrom (rest : list (option (segment value)))
  (key : bytes) (out : list (list value)) (segs : list (option (segment value)))
  (i : nat)
  : outcome ((list (list value) * list (option (segment value))) * option error) :=
  match rest with
  | [] => Return ((take i out, take i segs), None)
  | None :: _ => Panic NilDereference
  | Some s :: rest' =>
      let '(v, err) := segment_getCollection s key in
      let store :=
        if decide (i < length out)%nat then
          getCollectionAndSegmentsFrom rest' key
            (<[i := v]> out) (<[i := Some s]> segs) (S i)
        else Panic IndexOutOfRange in
      match err with
      | Some e =>
          if negb (errors_Is e NotFound) then Return (([], []), Some e)
          else if decide (strategy s <> StrategyInverted)
               then getCollectionAndSegmentsFrom rest' key out segs i
               else store
      | None => store
      end
  end.

Definition getCollectionAndSegments (segments : list (option (segment value)))
  (key : bytes)
  : outcome ((list (list value) * list (option (segment value))) * option error) :=
  getCollectionAndSegmentsFrom segments key
    (replicate (length segments) []) (replicate (length segments) None) 0.

(** The loop of [roaringSetGet] over the segments left to visit. *)
Fixpoint roaringSetGetFrom (rest : list (option (segment value))) (key : bytes)
  (out : list BitmapLayer) : outcome (list BitmapLayer * option error) :=
  match rest with
  | [] => Return (out, None)
  | None :: _ => Panic NilDereference
  | Some s :: rest' =>
      let '(rs, err) := segment_roaringSetGet s key in
      match err with
      | Some e =>
          if errors_Is e NotFound then roaringSetGetFrom rest' key out
          else Return ([], Some e)
      | None => roaringSetGetFrom rest' key (out ++ [rs])
      end
  end.

Definition roaringSetGet (segments : list (option (segment value))) (key : bytes)
  : outcome (list BitmapLayer * option error) :=
  roaringSetGetFrom segments key [].

(** The loop of [count], [count] being the sum so far. *)
Fixpoint countFrom (rest : list (option (segment value))) (count : Z) : outcome Z :=
  match rest with
  | [] => Return count
  | None :: _ => Panic NilDereference
  | Some seg :: rest' => countFrom rest' (wrap_int (count + countNetAdditions seg))
  end.

Definition count (segments : list (option (segment value))) : outcome Z :=
  countFrom segments 0.


(** *** What these readers are compared with *)

(** The layer a segment gives for the key, none when it reports an
    error. *)
Definition layerOf (s : segment value) (key : bytes) : list BitmapLayer :=
  match segment_roaringSetGet s key with
  | (rs, None) => [rs]
  | (_, Some _) => []
  end.

(** The segment is given a layer by [getCollectionAndSegments]: it
    answers without error, or it is an inverted segment. *)
Definition keptLayer (s : segment value) (key : bytes) : bool :=
  match segment_getCollection s key with
  | (_, None) => true
  | (_, Some _) => bool_decide (strategy s = StrategyInverted)
  end.

Definition layersOf (segs : list (segment value)) (key : bytes) : list (segment value) :=
  filter (fun s => keptLayer s key = true) segs.

End OtherReaders.

(** ** Notions used to state what the group keeps *)

(** [get]'s answer, given [getErrDeleted]'s: the error is dropped, and
    the value with it. *)
Definition dropError (r : outcome (option bytes * option error))
  : outcome (option bytes * option error) :=
  match r with
  | Return (v, None) => Return (v, None)
  | Return (_, Some _) => Return (None, None)
  | Panic p => Panic p
  end.

(** The call did not index past the sequence nor meet a [nil] slot. *)
Definition noBadSlot {A} (r : outcome A) : Prop :=
  match r with
  | Panic IndexOutOfRange | Panic NilDereference => False
  | _ => True
  end.

(** The entries of a listing with a given extension. *)
Definition countExt (ext : string) (l : list string) : nat :=
  length (filter (fun n => filepath_Ext n = ext) l).

Section Notions.
Context {value : Type}.
Implicit Types (st : recovery value).

(** The sum of the net additions of the segments. *)
Definition netAdditions (segs : list (segment value)) : Z :=
  foldr (fun s acc => countNetAdditions s + acc) 0 segs.

(** Every slot holds a segment whose predicate was made for the index
    of the slot. *)
Definition boundToPosition (l : list (option (segment value))) : Prop :=
  forall (j : nat) (slot : option (segment value)),
    l !! j = Some slot ->
    exists s, slot = Some s /\ existsOnLower s = ExistsOnLowerOf j.

(** A step of the recovery that leaves the slice and the index alone. *)
Definition stepKeeps st st' : Prop :=
  segmentIndex st' = segmentIndex st /\ rec_segments st' = rec_segments st.

(** A step of the recovery that stores a segment, bound to its index,
    in the next slot. *)
Definition stepStores st st' : Prop :=
  (segmentIndex st < length (rec_segments st))%nat /\
  segmentIndex st' = S (segmentIndex st) /\
  exists s, rec_segments st' = <[segmentIndex st := Some s]> (rec_segments st) /\
            existsOnLower s = ExistsOnLowerOf (segmentIndex st).

(** The slots below [segmentIndex] hold segments bound to their index,
    and the slots left are enough for the entries still to be read. *)
Definition roomFor st (tmps dbs : list string) : Prop :=
  (segmentIndex st + countExt ".tmp" tmps + countExt ".db" dbs
   <= length (rec_segments st))%nat /\
  boundToPosition (take (segmentIndex st) (rec_segments st)).

End Notions.

(** ** More segments and collaborators to run the group on *)

(** A lookup by secondary key that answers as the lookup by primary
    key does, the key standing for the primary key. *)
Definition secondaryOf (s : segment string) (pos : Z) (key : bytes)
  (buffer : option bytes) : (option bytes * option bytes * option bytes) * option error :=
  match segment_get s key with
  | (v, None) => ((Some key, v, buffer), None)
  | (_, Some e) => ((None, None, None), Some e)
  end.

(** A bitmap layer that is the number of values under the key. *)
Definition roaringOf (s : segment string) (key : bytes) : nat * option error :=
  match segment_getCollection s key with
  | (v, err) => (length v, err)
  end.

(** The segment of path [segment-03.db] is an inverted one. *)
Definition strategyOf (s : segment string) : Z :=
  if decide (path s = "segment-03.db") then 5 else 0.

(** A segment without any key, of another path than [seg_empty]. *)
Definition seg_empty4 : segment string :=
  Segment "segment-04.db" (ExistsOnLowerOf 3) emptyTable.

(** A segment without any key that adds [n] to the count. *)
Definition seg_adding (n : Z) : segment string :=
  Segment "segment-09.db" (ExistsOnLowerOf 0)
    (File None (fun _ => (None, Some NotFound)) (fun _ => ([], Some NotFound)) None n).

(** A pass that always finds work and takes a second. *)
Definition busyPass (w : Z) : (bool * option error) * Z :=
  ((true, None), w + 1000000000).

(** A directory with a file marked for deletion and a leftover of a
    cleanup. *)
Definition world_leftovers : world string :=
  World {[ "segment-05.db.deleteme" := emptyTable;
           "segment-07.db.tmp" := emptyTable ]} 100 (fun _ => None) [].

(** * Properties *)

(** ** Go's library *)

Lemma errors_Is_refl (e : error) : errors_Is e e = true.
Proof. destruct e; simpl; try reflexivity; case_decide; congruence. Qed.

(** An error has one chain of causes: it cannot be both sentinels. *)
Lemma errors_Is_NotFound_Deleted (e : error) :
  errors_Is e NotFound = true -> errors_Is e Deleted = false.
Proof.
  induction e as [| | msg | msg cause IH]; simpl; intros H;
    repeat case_decide; try congruence; auto.
Qed.

(** Saturation does not change a comparison with a bound below the
    largest [Duration]. *)
Lemma time_Sub_gt (t u d : Z) :
  minDuration <= d < maxDuration -> (time_Sub t u > d <-> t - u > d).
Proof.
  unfold time_Sub, maxDuration, minDuration.
  change (2 ^ 63) with 9223372036854775808.
  intros Hd. repeat case_decide; lia.
Qed.

Lemma lastDotOrSlash_app (a b t : string) :
  lastDotOrSlash b = Some t -> lastDotOrSlash (a +:+ b) = Some t.
Proof.
  intros H. induction a as [|c a IH]; simpl; [done|]. by rewrite IH.
Qed.

Lemma filepath_Ext_app (a b t : string) :
  lastDotOrSlash b = Some t -> filepath_Ext (a +:+ b) = filepath_Ext b.
Proof.
  intros H. unfold filepath_Ext. by rewrite (lastDotOrSlash_app a b t H), H.
Qed.

Lemma filepath_Ext_db (stem : string) : filepath_Ext (stem +:+ ".db") = ".db".
Proof. by rewrite (filepath_Ext_app stem ".db" ".db"). Qed.

Lemma lastDotOrSlash_suffix (s t : string) :
  lastDotOrSlash s = Some t -> exists a, s = a +:+ t.
Proof.
  revert t. induction s as [|c s IH]; intros t; simpl; [done|].
  destruct (lastDotOrSlash s) as [t'|].
  - intros [= ->]. destruct (IH t eq_refl) as [a ->]. by exists (String c a).
  - case_bool_decide; [|done]. intros [= <-]. by exists "".
Qed.

Lemma string_length_app (a b : string) :
  String.length (a +:+ b) = (String.length a + String.length b)%nat.
Proof.
  induction a as [|c a IH]; [done|].
  change (String c a +:+ b) with (String c (a +:+ b)). simpl. by rewrite IH.
Qed.

Lemma strings_TrimSuffix_self (s : string) : strings_TrimSuffix s s = "".
Proof. destruct s; cbn [strings_TrimSuffix]; by rewrite decide_True. Qed.

Lemma strings_TrimSuffix_app (a suffix : string) :
  strings_TrimSuffix (a +:+ suffix) suffix = a.
Proof.
  induction a as [|c a IH].
  - apply strings_TrimSuffix_self.
  - change (String c a +:+ suffix) with (String c (a +:+ suffix)).
    cbn [strings_TrimSuffix]. rewrite decide_False.
    + by rewrite IH.
    + intros H. apply (f_equal String.length) in H. simpl in H.
      rewrite string_length_app in H. lia.
Qed.

Lemma filepath_Ext_stem (name ext : string) :
  ext <> "" -> filepath_Ext name = ext -> name = strings_TrimSuffix name ext +:+ ext.
Proof.
  unfold filepath_Ext. intros Hne H.
  destruct (lastDotOrSlash name) as [[|c r]|] eqn:E; try congruence.
  case_decide; [|congruence]. subst.
  apply lastDotOrSlash_suffix in E as [a ->].
  by rewrite strings_TrimSuffix_app.
Qed.

(** ** The reader path *)

Section ReaderPath.
Context {value : Type}.
Implicit Types (s : segment value) (key : bytes).
Implicit Types (segs older newer : list (segment value)).

Lemma getFrom_app_l (l1 l2 : list (option (segment value))) key (i : nat) :
  (i < length l1)%nat -> getFrom (l1 ++ l2) key i = getFrom l1 key i.
Proof.
  induction i as [|i IH]; intros Hi; simpl;
    rewrite (lookup_app_l l1 l2) by lia;
    destruct (l1 !! _) as [[s|]|]; try reflexivity;
    destruct (segment_get s key) as [v [e|]]; try reflexivity;
    destruct (errors_Is e NotFound); try reflexivity.
  apply IH. lia.
Qed.

Lemma getFrom_take (l : list (option (segment value))) key (i : nat) :
  (i < length l)%nat -> getFrom l key i = getFrom (take (S i) l) key i.
Proof.
  intros Hi. rewrite <- (take_drop (S i) l) at 1.
  apply getFrom_app_l. rewrite length_take. lia.
Qed.

(** The walk from an upper boundary within the sequence is [get] on the
    segments up to that boundary. *)
Lemma getWithUpperSegmentBoundary_take (l : list (option (segment value))) key (i : nat) :
  (i < length l)%nat ->
  getWithUpperSegmentBoundary l key (Z.of_nat i) = get (take (S i) l) key.
Proof.
  intros Hi. unfold get, getWithUpperSegmentBoundary.
  rewrite length_take, Nat.min_l by lia.
  destruct (decide (Z.of_nat i >= 0)) as [_|H]; [|lia].
  destruct (decide (Z.of_nat (S i) - 1 >= 0)) as [_|H]; [|lia].
  replace (Z.to_nat (Z.of_nat (S i) - 1)) with i by lia.
  rewrite Nat2Z.id. by apply getFrom_take.
Qed.

Lemma get_unfold (l : list (option (segment value))) key :
  get l key =
  match l with
  | [] => Return (None, None)
  | _ => getFrom l key (length l - 1)
  end.
Proof.
  unfold get, getWithUpperSegmentBoundary. destruct l as [|x l].
  - reflexivity.
  - destruct (decide _) as [_|H]; [|rewrite length_cons in H; lia].
    f_equal. rewrite length_cons. lia.
Qed.

Lemma get_snoc (l : list (option (segment value))) s key :
  get (l ++ [Some s]) key = answerOf s key (get l key).
Proof.
  rewrite (get_unfold (l ++ _)). destruct (l ++ [Some s]) eqn:E.
  { destruct l; discriminate. }
  rewrite <- E. clear E. rewrite length_app. simpl.
  replace (length l + 1 - 1)%nat with (length l) by lia.
  unfold answerOf. destruct l as [|x l'] using rev_ind.
  - simpl. destruct (segment_get s key) as [v [e|]]; reflexivity.
  - clear IHl'. rewrite length_app; simpl.
    replace (length l' + 1)%nat with (S (length l')) by lia. simpl.
    rewrite lookup_app_r by (rewrite length_app; simpl; lia).
    rewrite length_app; simpl.
    replace (S (length l') - (length l' + 1))%nat with 0%nat by lia. simpl.
    destruct (segment_get s key) as [v [e|]]; try reflexivity.
    destruct (errors_Is e NotFound); try reflexivity.
    rewrite getFrom_app_l by (rewrite length_app; simpl; lia).
    rewrite (get_unfold (l' ++ [x])).
    destruct (l' ++ [x]) eqn:E; [destruct l'; discriminate|].
    rewrite <- E. rewrite length_app. simpl. f_equal. lia.
Qed.

Lemma get_skip_newer (l : list (option (segment value))) newer key :
  Forall (fun s => reportsNotFound s key = true) newer ->
  get (l ++ (Some <$> newer)) key = get l key.
Proof.
  induction newer as [|s newer IH] using rev_ind; intros H.
  - simpl. by rewrite app_nil_r.
  - apply Forall_app in H as [H1 H2]. rewrite Forall_singleton in H2.
    rewrite fmap_app. simpl. rewrite app_assoc, get_snoc.
    unfold answerOf. cbv beta in H2. unfold reportsNotFound in H2.
    destruct (segment_get s key) as [v [e|]]; [|discriminate].
    rewrite H2. by apply IH.
Qed.

Lemma getFromErrDeleted_app_l (l1 l2 : list (option (segment value))) key (i : nat) :
  (i < length l1)%nat -> getFromErrDeleted (l1 ++ l2) key i = getFromErrDeleted l1 key i.
Proof.
  induction i as [|i IH]; intros Hi; simpl;
    rewrite (lookup_app_l l1 l2) by lia;
    destruct (l1 !! _) as [[s|]|]; try reflexivity;
    destruct (segment_get s key) as [v [e|]]; try reflexivity;
    destruct (errors_Is e NotFound); try reflexivity.
  apply IH. lia.
Qed.

Lemma getErrDeleted_unfold (l : list (option (segment value))) key :
  getErrDeleted l key =
  match l with
  | [] => Return (None, Some NotFound)
  | _ => getFromErrDeleted l key (length l - 1)
  end.
Proof.
  unfold getErrDeleted, getWithUpperSegmentBoundaryErrDeleted. destruct l as [|x l].
  - reflexivity.
  - destruct (decide _) as [_|H]; [|rewrite length_cons in H; lia].
    f_equal. rewrite length_cons. lia.
Qed.

Lemma getErrDeleted_snoc (l : list (option (segment value))) s key :
  getErrDeleted (l ++ [Some s]) key = answerOfErrDeleted s key (getErrDeleted l key).
Proof.
  rewrite (getErrDeleted_unfold (l ++ _)). destruct (l ++ [Some s]) eqn:E.
  { destruct l; discriminate. }
  rewrite <- E. clear E. rewrite length_app. simpl.
  replace (length l + 1 - 1)%nat with (length l) by lia.
  unfold answerOfErrDeleted. destruct l as [|x l'] using rev_ind.
  - simpl. destruct (segment_get s key) as [v [e|]]; reflexivity.
  - clear IHl'. rewrite length_app; simpl.
    replace (length l' + 1)%nat with (S (length l')) by lia. simpl.
    rewrite lookup_app_r by (rewrite length_app; simpl; lia).
    rewrite length_app; simpl.
    replace (S (length l') - (length l' + 1))%nat with 0%nat by lia. simpl.
    destruct (segment_get s key) as [v [e|]]; try reflexivity.
    destruct (errors_Is e NotFound); try reflexivity.
    rewrite getFromErrDeleted_app_l by (rewrite length_app; simpl; lia).
    rewrite (getErrDeleted_unfold (l' ++ [x])).
    destruct (l' ++ [x]) eqn:E; [destruct l'; discriminate|].
    rewrite <- E. rewrite length_app. simpl. f_equal. lia.
Qed.

Lemma getErrDeleted_skip_newer (l : list (option (segment value))) newer key :
  Forall (fun s => reportsNotFound s key = true) newer ->
  getErrDeleted (l ++ (Some <$> newer)) key = getErrDeleted l key.
Proof.
  induction newer as [|s newer IH] using rev_ind; intros H.
  - simpl. by rewrite app_nil_r.
  - apply Forall_app in H as [H1 H2]. rewrite Forall_singleton in H2.
    rewrite fmap_app. simpl. rewrite app_assoc, getErrDeleted_snoc.
    unfold answerOfErrDeleted. unfold reportsNotFound in H2.
    destruct (segment_get s key) as [v [e|]]; [|discriminate].
    rewrite H2. by apply IH.
Qed.

(** Where the walk from index [i] finds a value: at the newest index
    [j] at or below [i] whose segment does not answer [NotFound]. *)
Lemma getFrom_value (l : list (option (segment value))) key (i : nat) (v : bytes) :
  getFrom l key i = Return (Some v, None) <->
  exists (j : nat) s,
    (j <= i)%nat /\ l !! j = Some (Some s) /\ segment_get s key = (Some v, None) /\
    forall j' : nat, (j < j' <= i)%nat ->
      exists s', l !! j' = Some (Some s') /\ reportsNotFound s' key = true.
Proof.
  induction i as [|i IH]; simpl.
  - split.
    + destruct (l !! 0%nat) as [[s|]|] eqn:E; try discriminate.
      destruct (segment_get s key) as [v' [e|]] eqn:G.
      * destruct (errors_Is e NotFound); [discriminate|].
        destruct (errors_Is e Deleted); discriminate.
      * intros [= ->]. exists 0%nat, s. repeat split; auto. intros j' ?; lia.
    + intros (j & s & Hj & Hl & Hg & _). assert (j = 0%nat) as -> by lia.
      by rewrite Hl, Hg.
  - split.
    + destruct (l !! S i) as [[s|]|] eqn:E; try discriminate.
      destruct (segment_get s key) as [v' [e|]] eqn:G.
      * destruct (errors_Is e NotFound) eqn:N.
        -- intros H. apply IH in H as (j & s0 & Hj & Hl & Hg & Hnewer).
           exists j, s0. repeat split; auto. intros j' Hj'.
           destruct (decide (j' = S i)) as [->|].
           ++ exists s. split; [done|]. unfold reportsNotFound. by rewrite G.
           ++ apply Hnewer. lia.
        -- destruct (errors_Is e Deleted); discriminate.
      * intros [= ->]. exists (S i), s. repeat split; auto. intros j' ?; lia.
    + intros (j & s & Hj & Hl & Hg & Hnewer).
      destruct (decide (j = S i)) as [->|Hne].
      * by rewrite Hl, Hg.
      * destruct (Hnewer (S i)) as (s' & Hl' & Hnf); [lia|].
        rewrite Hl'. unfold reportsNotFound in Hnf.
        destruct (segment_get s' key) as [v' [e|]]; [|discriminate].
        rewrite Hnf. apply IH. exists j, s. repeat split; auto; [lia|].
        intros j' ?. apply Hnewer. lia.
Qed.

Lemma getCollectionFrom_app segs (rest : list (option (segment value))) key (out : list value) :
  Forall (fun s => collectionOk s key) segs ->
  getCollectionFrom ((Some <$> segs) ++ rest) key out =
  getCollectionFrom rest key (out ++ concat ((fun s => collected s key) <$> segs)).
Proof.
  revert out. induction segs as [|s segs IH]; intros out H; simpl.
  - by rewrite app_nil_r.
  - apply Forall_cons in H as [Hs H]. unfold collectionOk in Hs. unfold collected at 1.
    destruct (segment_getCollection s key) as [v [e|]].
    + rewrite Hs. simpl. by apply IH.
    + rewrite IH by done. f_equal. case_decide as Hout.
      * destruct out; [done|discriminate].
      * by rewrite app_assoc.
Qed.

End ReaderPath.

(** ** Claims on the reader path *)

Section ReaderClaims.
Context {value : Type}.
Implicit Types (s : segment value) (key : bytes).
Implicit Types (segs older newer : list (segment value)).

(** C1. For the Replace strategy the walk goes from the newest segment
    to the oldest: the segments that answer [NotFound] are passed over
    ([newer]); the newest segment [s] that is not passed over decides:
    its value is returned and nothing older is looked at; on [NotFound]
    the walk goes on with the older segments; on [Deleted] the answer
    is absent ([nil], no error) and the walk stops; on any other error
    the group panics. So [get] returns the value of the most recent
    write, or absent when that write is a tombstone. *)
Theorem get_newest_write_wins older s newer key :
  Forall (fun s' => reportsNotFound s' key = true) newer ->
  get (Some <$> (older ++ s :: newer)) key =
  match segment_get s key with
  | (v, None) => Return (v, None)
  | (_, Some e) =>
      if errors_Is e NotFound then get (Some <$> older) key
      else if errors_Is e Deleted then Return (None, None)
      else Panic (UnsupportedError e)
  end.
Proof.
  intros Hnewer. rewrite fmap_app, fmap_cons.
  change (Some s :: (Some <$> newer)) with ([Some s] ++ (Some <$> newer)).
  rewrite app_assoc, get_skip_newer by done.
  apply get_snoc.
Qed.

(** C9. When no segment holds the key (each one answers [NotFound]),
    and so too when there is no segment at all, [get] returns [nil]
    without an error. *)
Theorem get_absent_when_no_segment_holds segs key :
  Forall (fun s => reportsNotFound s key = true) segs ->
  get (Some <$> segs) key = Return (None, None).
Proof.
  intros H. change (Some <$> segs) with ([] ++ (Some <$> segs)).
  by rewrite get_skip_newer.
Qed.

(** C10. When no segment holds the key or a tombstone for it,
    [getErrDeleted] returns the sentinel [NotFound] and no value, where
    [get] returns absent and no error; when the newest segment that
    holds the key holds a tombstone, [getErrDeleted] returns the
    [Deleted] error of that segment. *)
Theorem getErrDeleted_sentinels segs older s newer key v e :
  Forall (fun s' => reportsNotFound s' key = true) segs ->
  Forall (fun s' => reportsNotFound s' key = true) newer ->
  segment_get s key = (v, Some e) ->
  errors_Is e Deleted = true ->
  getErrDeleted (Some <$> segs) key = Return (None, Some NotFound) /\
  get (Some <$> segs) key = Return (None, None) /\
  getErrDeleted (Some <$> (older ++ s :: newer)) key = Return (None, Some e) /\
  (e = Deleted -> getErrDeleted (Some <$> (older ++ s :: newer)) key
                  = Return (None, Some Deleted)).
Proof.
  intros Hsegs Hnewer Hs He.
  assert (getErrDeleted (Some <$> (older ++ s :: newer)) key = Return (None, Some e))
    as Hdel.
  { rewrite fmap_app, fmap_cons.
    change (Some s :: (Some <$> newer)) with ([Some s] ++ (Some <$> newer)).
    rewrite app_assoc, getErrDeleted_skip_newer by done.
    rewrite getErrDeleted_snoc. unfold answerOfErrDeleted. rewrite Hs, He.
    destruct (errors_Is e NotFound) eqn:N; [|done].
    apply errors_Is_NotFound_Deleted in N. congruence. }
  repeat split.
  - change (Some <$> segs) with ([] ++ (Some <$> segs)).
    by rewrite getErrDeleted_skip_newer.
  - change (Some <$> segs) with ([] ++ (Some <$> segs)).
    by rewrite get_skip_newer.
  - exact Hdel.
  - intros ->. exact Hdel.
Qed.

(** C5. [getCollection] goes from the oldest segment to the newest and
    returns, in that order, the values of the segments that hold the
    key, one after the other; a segment that answers [NotFound] is
    passed over; any other error of a segment is returned with no value
    at all. *)
Theorem getCollection_concatenates segs (bad : segment value)
  (rest : list (option (segment value))) key (v : list value) e :
  Forall (fun s => collectionOk s key) segs ->
  segment_getCollection bad key = (v, Some e) ->
  errors_Is e NotFound = false ->
  getCollection (Some <$> segs) key
    = Return (concat ((fun s => collected s key) <$> segs), None) /\
  getCollection ((Some <$> segs) ++ Some bad :: rest) key = Return ([], Some e).
Proof.
  intros Hok Hbad He. unfold getCollection. split.
  - rewrite <- (app_nil_r (Some <$> segs)).
    by rewrite getCollectionFrom_app.
  - rewrite getCollectionFrom_app by done. simpl.
    by rewrite Hbad, He.
Qed.

(** C8, as the code has it. The predicate made for index [i] answers
    true exactly when the Replace lookup over the segments below [i]
    finds a value: the newest segment below [i] that does not answer
    [NotFound] holds a value for the key (and not a tombstone). For
    [i = 0] it answers false whatever the segments are. *)
Theorem makeExistsOnLower_newest_lower_value
  (l : list (option (segment value))) (i : nat) key :
  makeExistsOnLower l 0 key = Return (false, None) /\
  (makeExistsOnLower l i key = Return (true, None) <->
   exists (j : nat) s (v : bytes),
     (j < i)%nat /\ l !! j = Some (Some s) /\ segment_get s key = (Some v, None) /\
     forall j' : nat, (j < j' < i)%nat ->
       exists s', l !! j' = Some (Some s') /\ reportsNotFound s' key = true).
Proof.
  split; [reflexivity|].
  unfold makeExistsOnLower, getWithUpperSegmentBoundary.
  destruct i as [|i].
  { simpl. split; [discriminate|]. intros (j & _ & _ & Hj & _). lia. }
  destruct (decide (S i = 0%nat)) as [|_]; [discriminate|].
  destruct (decide _) as [_|H]; [|lia].
  replace (Z.to_nat (Z.of_nat (S i) - 1)) with i by lia.
  split.
  - destruct (getFrom l key i) as [[v [e|]]|p] eqn:G; try discriminate.
    destruct v as [v|]; [|simpl; discriminate].
    intros _. apply getFrom_value in G as (j & s & Hj & Hl & Hg & Hnewer).
    exists j, s, v. repeat split; auto; [lia|].
    intros j' ?. apply Hnewer. lia.
  - intros (j & s & v & Hj & Hl & Hg & Hnewer).
    assert (getFrom l key i = Return (Some v, None)) as ->; [|done].
    apply getFrom_value. exists j, s. repeat split; auto; [lia|].
    intros j' ?. apply Hnewer. lia.
Qed.

End ReaderClaims.

(** C1 on a stack of three segments: a value, a tombstone over it, and
    a newest segment without the key. *)
Lemma get_newest_write_wins_witness :
  Forall (fun s' => reportsNotFound s' key_k = true) [seg_empty] /\
  get (Some <$> ([seg_v1] ++ seg_tombstone :: [seg_empty])) key_k = Return (None, None).
Proof.
  assert (Forall (fun s' => reportsNotFound s' key_k = true) [seg_empty]) as H
    by (repeat constructor).
  split; [exact H|].
  exact (get_newest_write_wins [seg_v1] seg_tombstone [seg_empty] key_k H).
Defined.

(** C9 on two segments without the key. *)
Lemma get_absent_when_no_segment_holds_witness :
  Forall (fun s => reportsNotFound s key_k = true) [seg_empty; seg_empty] /\
  get (Some <$> [seg_empty; seg_empty]) key_k = Return (None, None).
Proof.
  assert (Forall (fun s => reportsNotFound s key_k = true) [seg_empty; seg_empty]) as H
    by (repeat constructor).
  split; [exact H|].
  exact (get_absent_when_no_segment_holds [seg_empty; seg_empty] key_k H).
Defined.

(** C10 on a segment without the key, and on a tombstone over a value. *)
Lemma getErrDeleted_sentinels_witness :
  getErrDeleted (Some <$> [seg_empty]) key_k = Return (None, Some NotFound) /\
  get (Some <$> [seg_empty]) key_k = Return (None, None) /\
  getErrDeleted (Some <$> ([seg_v1] ++ seg_tombstone :: [seg_empty])) key_k
    = Return (None, Some Deleted).
Proof.
  assert (Forall (fun s' => reportsNotFound s' key_k = true) [seg_empty]) as H
    by (repeat constructor).
  destruct (getErrDeleted_sentinels [seg_empty] [seg_v1] seg_tombstone [seg_empty]
              key_k None Deleted H H eq_refl eq_refl) as (H1 & H2 & H3 & _).
  exact (conj H1 (conj H2 H3)).
Defined.

(** C5 on three segments, and with a segment whose read fails after
    them. *)
Lemma getCollection_concatenates_witness :
  getCollection (Some <$> [seg_v1; seg_empty; seg_v1]) key_k
    = Return (["a"; "b"; "a"; "b"], None) /\
  getCollection ((Some <$> [seg_v1; seg_empty; seg_v1]) ++ Some seg_broken :: [Some seg_v1])
    key_k = Return ([], Some (ErrMsg "read: input/output error")).
Proof.
  assert (Forall (fun s => collectionOk s key_k) [seg_v1; seg_empty; seg_v1]) as H.
  { repeat constructor. }
  exact (getCollection_concatenates [seg_v1; seg_empty; seg_v1] seg_broken [Some seg_v1]
           key_k [] (ErrMsg "read: input/output error") H eq_refl eq_refl).
Defined.

(** C8, as the claim has it, fails: the segment at index 0 holds the
    key, the segment at index 1 holds a tombstone for it, and the
    predicate made for index 2 answers false. *)
Lemma exists_on_lower_counterexample :
  makeExistsOnLower [Some seg_v1; Some seg_tombstone] 2 key_k = Return (false, None) /\
  exists (j : nat) (s : segment string) (v : bytes),
    (j < 2)%nat /\ [Some seg_v1; Some seg_tombstone] !! j = Some (Some s) /\
    segment_get s key_k = (Some v, None).
Proof.
  split; [reflexivity|].
  exists 0%nat, seg_v1, val_v1. repeat split. lia.
Qed.

(** ** Append *)

Section AppendClaims.
Context {value : Type}.
Implicit Types (s : segment value) (key : bytes).

Lemma makeExistsOnLower_app_l (l1 l2 : list (option (segment value))) (i : nat) key :
  (i <= length l1)%nat ->
  makeExistsOnLower (l1 ++ l2) i key = makeExistsOnLower l1 i key.
Proof.
  intros Hi. unfold makeExistsOnLower, getWithUpperSegmentBoundary.
  destruct (decide (i = 0%nat)) as [|Hne]; [done|].
  destruct (decide _) as [_|H]; [|lia].
  rewrite getFrom_app_l by lia. done.
Qed.

(** C7, as the code has it. After [add] returns without an error the
    segment opened on the path is the last element of the sequence, its
    predicate is the one made for the former length (it looks up the
    segments up to the former top, and not the new one), and the former
    positions hold what they held. [addInitializedSegment] pushes the
    segment it is given as the last element and leaves the former
    positions alone; the predicate of that segment is the one it came
    with. *)
Theorem add_appends_at_tail (segments segments' : list (option (segment value)))
  (name : string) (w w' : world value) :
  add segments name w = (None, segments', w') ->
  (exists s,
     segments' = segments ++ [Some s] /\
     path s = name /\
     existsOnLower s = ExistsOnLowerOf (length segments) /\
     (forall key,
        callExistsOnLower segments' (existsOnLower s) key
        = makeExistsOnLower segments (length segments) key) /\
     segments' !! length segments = Some (Some s) /\
     (forall i : nat, (i < length segments)%nat -> segments' !! i = segments !! i)) /\
  (forall seg : option (segment value),
     addInitializedSegment segments seg = (None, segments ++ [seg]) /\
     (segments ++ [seg]) !! length segments = Some seg /\
     (forall i : nat, (i < length segments)%nat ->
        (segments ++ [seg]) !! i = segments !! i)).
Proof.
  intros Hadd. split.
  - unfold add, newSegment in Hadd.
    destruct (faults w _); [discriminate|].
    destruct (files w !! name) as [f|]; [|discriminate].
    destruct (file_open f); [discriminate|].
    injection Hadd as <- <-.
    exists (Segment name (ExistsOnLowerOf (length segments)) f). simpl.
    repeat split.
    + intros key. by apply makeExistsOnLower_app_l.
    + by rewrite lookup_app_r, Nat.sub_diag.
    + intros i Hi. by apply lookup_app_l.
  - intros seg. repeat split.
    + by rewrite lookup_app_r, Nat.sub_diag.
    + intros i Hi. by apply lookup_app_l.
Qed.

End AppendClaims.

(** C7 on a group of one segment. *)
Lemma add_appends_at_tail_witness :
  add [Some seg_v1] "segment-05.db" world_05
  = (None,
     [Some seg_v1; Some (Segment "segment-05.db" (ExistsOnLowerOf 1) (tableWith key_k val_v1 []))],
     logged (OpNewSegment "segment-05.db" true) world_05) /\
  exists s,
    existsOnLower s = ExistsOnLowerOf 1 /\
    [Some seg_v1; Some (Segment "segment-05.db" (ExistsOnLowerOf 1) (tableWith key_k val_v1 []))]
      !! 1%nat = Some (Some s).
Proof.
  assert (add [Some seg_v1] "segment-05.db" world_05
          = (None,
             [Some seg_v1;
              Some (Segment "segment-05.db" (ExistsOnLowerOf 1) (tableWith key_k val_v1 []))],
             logged (OpNewSegment "segment-05.db" true) world_05)) as H
    by (vm_compute; reflexivity).
  split; [exact H|].
  destruct (add_appends_at_tail _ _ _ _ _ H) as [(s & _ & _ & Hfn & _ & Htail & _) _].
  exists s. split; [exact Hfn | exact Htail].
Defined.

(** C7, as the claim has it, fails for [addInitializedSegment]: the
    segment pushed on two segments was made for index 0; it stays so,
    and its predicate answers false where the predicate made for the
    former length (2, former top 1) answers true. *)
Lemma append_initialized_counterexample :
  addInitializedSegment [Some seg_v1; Some seg_v1] (Some seg_v1)
  = (None, [Some seg_v1; Some seg_v1; Some seg_v1]) /\
  existsOnLower seg_v1 <> ExistsOnLowerOf 2 /\
  callExistsOnLower [Some seg_v1; Some seg_v1; Some seg_v1] (existsOnLower seg_v1) key_k
  = Return (false, None) /\
  makeExistsOnLower [Some seg_v1; Some seg_v1; Some seg_v1] 2 key_k
  = Return (true, None).
Proof. repeat split. discriminate. Qed.

(** ** Shutdown *)

Section ShutdownClaims.
Context {value : Type}.
Implicit Types (s : segment value) (key : bytes).

Lemma insert_middle {A} (pre tl : list A) (x y : A) :
  <[length pre := y]> (pre ++ x :: tl) = pre ++ y :: tl.
Proof.
  rewrite <- (Nat.add_0_r (length pre)). by rewrite insert_app_r.
Qed.

Lemma shutdownFrom_closed (before : list (segment value)) :
  Forall (fun s => segment_close s = None) before ->
  forall (pre tl : list (option (segment value))) (closed : list (segment value)),
  shutdownFrom (length pre) ((Some <$> before) ++ tl)
    (pre ++ (Some <$> before) ++ tl) closed
  = shutdownFrom (length pre + length before) tl
      (pre ++ replicate (length before) None ++ tl) (closed ++ before).
Proof.
  induction 1 as [|s before Hs _ IH]; intros pre tl closed; simpl.
  - by rewrite Nat.add_0_r, app_nil_r.
  - rewrite Hs, insert_middle.
    specialize (IH (pre ++ [None]) tl (closed ++ [s])).
    rewrite length_app in IH. simpl in IH.
    rewrite <- !app_assoc in IH. simpl in IH.
    rewrite Nat.add_1_r in IH. etrans; [exact IH|].
    f_equal. lia.
Qed.

(** C6, as the code has it. [shutdown] closes the segments in the order
    of the sequence and sets the slot of each closed segment to [nil];
    when [close] fails on a segment the error is returned at once, the
    slots before it are [nil], and that segment and the later ones are
    still in their slots, not closed; when every [close] goes through
    the sequence itself is set to [nil]. After that a read finds no
    segment and returns absent, and a later [add] opens its file and
    starts a new sequence without an error; it is a sequence of [nil]
    slots that would make a read panic. *)
Theorem shutdown_closes_in_order (env : shutdownEnv)
  (before : list (segment value)) s (rest : list (option (segment value)))
  (e : error) :
  unregister env = None ->
  segmentCleaner_close env = None ->
  Forall (fun s' => segment_close s' = None) before ->
  segment_close s = Some e ->
  shutdown env ((Some <$> before) ++ Some s :: rest)
  = Return (Some e, replicate (length before) None ++ Some s :: rest, before) /\
  shutdown env (Some <$> before) = Return (None, [], before) /\
  (forall key, get ([] : list (option (segment value))) key = Return (None, None)) /\
  (forall key (n : nat),
     get (replicate (S n) (None : option (segment value))) key = Panic NilDereference) /\
  (forall (name : string) (w : world value) (f : file value),
     faults w (OpNewSegment name true) = None ->
     files w !! name = Some f ->
     file_open f = None ->
     add [] name w
     = (None, [Some (Segment name (ExistsOnLowerOf 0) f)],
        logged (OpNewSegment name true) w)).
Proof.
  intros Hu Hc Hbefore Hs. unfold shutdown. rewrite Hu, Hc.
  repeat split.
  - pose proof (shutdownFrom_closed before Hbefore [] (Some s :: rest) []) as H.
    simpl in H. etrans; [exact H|]. simpl. by rewrite Hs.
  - pose proof (shutdownFrom_closed before Hbefore [] [] []) as H.
    simpl in H. rewrite !app_nil_r in H. etrans; [exact H|]. done.
  - intros key n. rewrite get_unfold.
    change (replicate (S n) None) with (None :: replicate n (@None (segment value))) at 1.
    cbv iota. rewrite length_replicate.
    assert (replicate (S n) (@None (segment value)) !! (S n - 1)%nat = Some None) as H
      by (apply lookup_replicate_2; lia).
    destruct (S n - 1)%nat; cbn [getFrom]; by rewrite H.
  - intros name w f Hf Hl Ho. unfold add, newSegment. by rewrite Hf, Hl, Ho.
Qed.

End ShutdownClaims.

(** C6 on four segments the third of which does not close, and on the
    first two alone. *)
Lemma shutdown_closes_in_order_witness :
  shutdown (ShutdownEnv None None None)
    ((Some <$> [seg_v1; seg_tombstone]) ++ Some seg_broken :: [Some seg_empty])
  = Return (Some (ErrMsg "close: input/output error"),
            [None; None; Some seg_broken; Some seg_empty],
            [seg_v1; seg_tombstone]) /\
  shutdown (ShutdownEnv None None None) (Some <$> [seg_v1; seg_tombstone])
  = Return (None, [], [seg_v1; seg_tombstone]).
Proof.
  assert (Forall (fun s' : segment string => segment_close s' = None)
            [seg_v1; seg_tombstone]) as H by (repeat constructor).
  destruct (shutdown_closes_in_order (ShutdownEnv None None None)
              [seg_v1; seg_tombstone] seg_broken [Some seg_empty]
              (ErrMsg "close: input/output error") eq_refl eq_refl H eq_refl)
    as (H1 & H2 & _).
  exact (conj H1 H2).
Defined.

(** C6, as the claim has it, fails: after a shutdown that went through,
    a late flush (an [add]) returns no error and a read returns absent;
    nothing fails. *)
Lemma late_flush_counterexample :
  shutdown (ShutdownEnv None None None) [Some seg_v1; Some seg_tombstone]
  = Return (None, [], [seg_v1; seg_tombstone]) /\
  add [] "segment-05.db" world_05
  = (None, [Some (Segment "segment-05.db" (ExistsOnLowerOf 0) (tableWith key_k val_v1 []))],
     logged (OpNewSegment "segment-05.db" true) world_05) /\
  get ([] : list (option (segment string))) key_k = Return (None, None).
Proof. repeat split; vm_compute; reflexivity. Qed.

(** ** The maintenance tick *)

Section MaintenanceClaims.
Context {W : Type}.
Context (time_Now : W -> Z).
Context (compactOnce cleanupOnce : W -> (bool * option error) * W).

Local Abbreviation cleanupIsFirst := (cleanupFirst time_Now).
Local Abbreviation runCompact := (compact time_Now compactOnce).
Local Abbreviation runCleanup := (cleanup time_Now cleanupOnce).
Local Abbreviation tick := (compactOrCleanup time_Now compactOnce cleanupOnce).

Lemma compact_calls (m : maintenance W) :
  calls (runCompact m).2 = calls m ++ [Compaction] /\
  lastCleanupCall (runCompact m).2 = lastCleanupCall m /\
  lastCompactionCall (runCompact m).2 = time_Now (m_world m).
Proof.
  unfold compact. by destruct (compactOnce (m_world m)) as [[b e] w'].
Qed.

Lemma cleanup_calls (m : maintenance W) :
  calls (runCleanup m).2 = calls m ++ [Cleanup] /\
  lastCompactionCall (runCleanup m).2 = lastCompactionCall m /\
  lastCleanupCall (runCleanup m).2 = time_Now (m_world m).
Proof.
  unfold cleanup. by destruct (cleanupOnce (m_world m)) as [[b e] w'].
Qed.

(** C4, as the code has it. The tick runs cleanup first exactly when
    the last cleanup call is more than 12 hours back and the last
    compaction call is more recent than the last cleanup call; in every
    other case it runs compaction first. If the pass run first returns
    true the other pass is not run; otherwise it is run after it; the
    tick returns the disjunction of the results. *)
Theorem compactOrCleanup_order (m : maintenance W) :
  let first := if cleanupIsFirst m then runCleanup else runCompact in
  let second := if cleanupIsFirst m then runCompact else runCleanup in
  let name1 := if cleanupIsFirst m then Cleanup else Compaction in
  let name2 := if cleanupIsFirst m then Compaction else Cleanup in
  (cleanupIsFirst m = true <->
   time_Now (m_world m) - lastCleanupCall m > 12 * time_Hour /\
   lastCleanupCall m < lastCompactionCall m) /\
  (tick m).1 = (first m).1 || (second (first m).2).1 /\
  (tick m).2
  = (if (first m).1 then (first m).2 else (second (first m).2).2) /\
  calls (tick m).2
  = calls m ++ (if (first m).1 then [name1] else [name1; name2]).
Proof.
  split.
  { unfold cleanupFirst, time_Before, forceCleanupInterval.
    rewrite andb_true_iff, !bool_decide_eq_true.
    rewrite time_Sub_gt; [lia|].
    unfold minDuration, maxDuration, time_Hour.
    change (2 ^ 63) with 9223372036854775808. lia. }
  unfold compactOrCleanup.
  destruct (cleanupIsFirst m).
  - pose proof (cleanup_calls m) as (Hc & _).
    destruct (runCleanup m) as [b1 m1]. simpl in *.
    destruct b1; simpl; [by rewrite Hc|].
    pose proof (compact_calls m1) as (Hc' & _).
    destruct (runCompact m1) as [b2 m2]. simpl in *.
    rewrite Hc', Hc, <- app_assoc. done.
  - pose proof (compact_calls m) as (Hc & _).
    destruct (runCompact m) as [b1 m1]. simpl in *.
    destruct b1; simpl; [by rewrite Hc|].
    pose proof (cleanup_calls m1) as (Hc' & _).
    destruct (runCleanup m1) as [b2 m2]. simpl in *.
    rewrite Hc', Hc, <- app_assoc. done.
Qed.

End MaintenanceClaims.

(** C4, as the claim has it, fails: in the state [newSegmentGroup]
    leaves (both instants equal) the last compaction call is not more
    recent than the last cleanup call, and the tick runs compaction
    first. *)
Lemma compaction_first_counterexample :
  let m := Maintenance 100 100 100 [] in
  ~ (time_Sub 100 (lastCleanupCall m) <= 12 * time_Hour /\
     lastCleanupCall m < lastCompactionCall m) /\
  calls (compactOrCleanup (fun w => w) idlePass idlePass m).2 = [Compaction; Cleanup].
Proof.
  split; [|reflexivity]. simpl. lia.
Qed.

(** ** Recovery of the directory *)

(** The worlds on both sides hold the same files and the same calls. *)
Ltac same_world :=
  unfold with_files, logged; cbn; rewrite <- ?app_assoc; reflexivity.

(** Runs one step of the recovery through every branch of its calls. *)
Ltac run_recovery :=
  unfold mbind, M_bind, mret, M_ret, try_io, unit_io, fileExists, os_Remove,
    os_Rename, fsync, newSegment, dropImmediately, storeSegment, markRecovered,
    fail_with, get_state in *;
  repeat (case_match; simplify_eq/=).

Section RecoveryClaims.
Context {value : Type}.
Context (segmentID : string -> string) (DeleteMarkerSuffix : string).

Lemma take_S_insert {A} (l : list A) (i : nat) (x : A) :
  (i < length l)%nat -> take (S i) (<[i := x]> l) = take i l ++ [x].
Proof.
  intros Hi. rewrite (take_S_r _ _ x).
  - by rewrite take_insert_ge by lia.
  - by apply list_lookup_insert_eq.
Qed.

Lemma filepath_Ext_segmentFilename (id : string) :
  filepath_Ext (segmentFilename id) = ".db".
Proof.
  unfold segmentFilename.
  rewrite (filepath_Ext_app "segment-" (id +:+ ".db") ".db")
    by (by apply lastDotOrSlash_app).
  apply filepath_Ext_db.
Qed.

Lemma recoverCompacted_skip (name : string) (st : recovery value) :
  filepath_Ext name <> ".tmp" -> recoverCompacted segmentID name st = Ok tt st.
Proof. intros H. unfold recoverCompacted. by rewrite decide_True. Qed.

(** The start of the second loop for a [.db] entry that the first loop
    did not claim: the probe for the write-ahead log. *)
Lemma recoverSegment_probe (st : recovery value) (name : string) :
  filepath_Ext name = ".db" ->
  DeleteMarkerSuffix <> ".db" ->
  name ∉ segmentsAlreadyRecoveredFromCompaction st ->
  recoverSegment DeleteMarkerSuffix name st
  = (ok ← try_io "check for presence of wals for segment"
            (fileExists (strings_TrimSuffix name ".db" +:+ ".wal"));
     if (ok : bool) then
       try_io "delete partially written segment" (unit_io (os_Remove name))
     else
       st ← get_state;
       seg ← try_io "init segment"
               (newSegment name (ExistsOnLowerOf (segmentIndex st)) false);
       storeSegment seg) st.
Proof.
  intros Hext Hdms Hrec. unfold recoverSegment. rewrite Hext.
  rewrite decide_False by congruence.
  rewrite (decide_False (P:=(".db" ≠ ".db"))) by (intros H; by apply H).
  unfold mbind at 1, M_bind at 1, get_state at 1.
  by rewrite decide_False.
Qed.

Lemma recoverSegment_wal_present (st : recovery value) (name : string) :
  filepath_Ext name = ".db" ->
  DeleteMarkerSuffix <> ".db" ->
  name ∉ segmentsAlreadyRecoveredFromCompaction st ->
  (forall op, faults (rec_world st) op = None) ->
  is_Some (files (rec_world st) !! name) ->
  is_Some (files (rec_world st) !! (strings_TrimSuffix name ".db" +:+ ".wal")) ->
  recoverSegment DeleteMarkerSuffix name st
  = Ok tt (Recovery
             (World (delete name (files (rec_world st))) (now (rec_world st))
                (faults (rec_world st))
                (trace (rec_world st)
                 ++ [OpStat (strings_TrimSuffix name ".db" +:+ ".wal"); OpRemove name]))
             (rec_segments st) (segmentIndex st)
             (segmentsAlreadyRecoveredFromCompaction st)).
Proof.
  intros Hext Hdms Hrec Hnf [f Hf] Hwal.
  rewrite recoverSegment_probe by done.
  destruct st as [[fs t flt tr] segs idx claimed]. simpl in *.
  unfold mbind, M_bind, try_io, fileExists. cbn [rec_world faults files].
  rewrite Hnf, bool_decide_eq_true_2 by done.
  unfold unit_io, os_Remove. cbn. rewrite Hnf, Hf.
  same_world.
Qed.

Lemma recoverSegment_wal_absent (st : recovery value) (name : string) (f : file value) :
  filepath_Ext name = ".db" ->
  DeleteMarkerSuffix <> ".db" ->
  name ∉ segmentsAlreadyRecoveredFromCompaction st ->
  (forall op, faults (rec_world st) op = None) ->
  files (rec_world st) !! name = Some f ->
  files (rec_world st) !! (strings_TrimSuffix name ".db" +:+ ".wal") = None ->
  file_open f = None ->
  (segmentIndex st < length (rec_segments st))%nat ->
  recoverSegment DeleteMarkerSuffix name st
  = Ok tt (Recovery
             (World (files (rec_world st)) (now (rec_world st)) (faults (rec_world st))
                (trace (rec_world st)
                 ++ [OpStat (strings_TrimSuffix name ".db" +:+ ".wal");
                     OpNewSegment name false]))
             (<[segmentIndex st
                := Some (Segment name (ExistsOnLowerOf (segmentIndex st)) f)]>
                (rec_segments st))
             (S (segmentIndex st))
             (segmentsAlreadyRecoveredFromCompaction st)).
Proof.
  intros Hext Hdms Hrec Hnf Hf Hwal Ho Hidx.
  rewrite recoverSegment_probe by done.
  destruct st as [[fs t flt tr] segs idx claimed]. simpl in *.
  unfold mbind, M_bind, try_io, fileExists. cbn [rec_world faults files].
  rewrite Hnf, bool_decide_eq_false_2 by (rewrite Hwal; by intros [? ?]).
  unfold get_state, newSegment. cbn. rewrite Hnf, Hf, Ho. cbn.
  unfold storeSegment. cbn. rewrite decide_True by done.
  same_world.
Qed.

(** Scenario S2 of the specification, for any two files under the two
    names and any way [segmentID] reads a name. *)
Lemma recovery_scenario_S2 (f1 f2 : file value) (t : Z) :
  DeleteMarkerSuffix <> ".db" ->
  exists st' : recovery value,
    newSegmentGroup segmentID DeleteMarkerSuffix
      (World {[ "segment-02.db" := f1; "segment-02.wal" := f2 ]} t (fun _ => None) [])
    = Ok (mkSegmentGroup [] t t) st' /\
    files (rec_world st') !! "segment-02.db" = None.
Proof.
  intros Hdms. unfold newSegmentGroup, os_ReadDir. cbn [faults files].
  assert (merge_sort String.le
            (elements (dom ({[ "segment-02.db" := f1; "segment-02.wal" := f2 ]}
                              : gmap string (file value))))
          = ["segment-02.db"; "segment-02.wal"]) as -> by (vm_compute; reflexivity).
  cbn [length replicate forEach]. unfold mbind, M_bind.
  rewrite !recoverCompacted_skip by (vm_compute; discriminate).
  unfold mret, M_ret. cbv beta iota.
  set (st0 := Recovery _ _ _ _).
  rewrite (recoverSegment_wal_present st0 "segment-02.db");
    [| reflexivity | done | set_solver | done
     | by eexists; vm_compute; reflexivity | by eexists; vm_compute; reflexivity].
  subst st0. cbn [rec_world files now faults trace rec_segments segmentIndex
                    segmentsAlreadyRecoveredFromCompaction].
  set (st1 := Recovery _ _ _ _).
  assert (exists w1, recoverSegment DeleteMarkerSuffix "segment-02.wal" st1
                     = Ok tt (Recovery w1 [None; None] 0 ∅) /\
                     faults w1 = (fun _ => None) /\
                     files w1 !! "segment-02.db" = None) as (w1 & -> & Hflt & Hfiles).
  { unfold recoverSegment.
    change (filepath_Ext "segment-02.wal") with ".wal".
    destruct (decide (".wal" = DeleteMarkerSuffix)) as [_|_].
    - subst st1. cbn [rec_world rec_segments segmentIndex
                        segmentsAlreadyRecoveredFromCompaction].
      destruct (os_Remove _ _) as [err w1] eqn:E.
      exists w1. split; [done|].
      unfold os_Remove in E. cbn in E.
      destruct (_ !! "segment-02.wal"); injection E as <- <-; split; try done;
        unfold with_files, logged; cbn; by simplify_map_eq.
    - rewrite decide_True by discriminate.
      exists (rec_world st1). split; [done|]. split; [done|].
      subst st1. cbn. by simplify_map_eq. }
  unfold get_state, newSegmentCleaner. cbn. rewrite Hflt. cbn.
  eexists. split; [reflexivity|]. cbn. done.
Qed.

(** C3. In the second pass, for a [.db] file that the first pass did
    not claim (with no I/O error from the environment): when the file
    of the same stem and extension [.wal] exists, the [.db] file is
    removed and nothing is added to the sequence; when it does not, the
    segment is opened and stored as the next element of the sequence.
    A directory with [segment-02.db] and [segment-02.wal] alone gives an
    empty sequence, [segment-02.db] being removed. *)
Theorem recoverSegment_wal_rule (st : recovery value) (name : string) :
  filepath_Ext name = ".db" ->
  DeleteMarkerSuffix <> ".db" ->
  name ∉ segmentsAlreadyRecoveredFromCompaction st ->
  (forall op, faults (rec_world st) op = None) ->
  let w := rec_world st in
  let walFileName := strings_TrimSuffix name ".db" +:+ ".wal" in
  name = strings_TrimSuffix name ".db" +:+ ".db" /\
  (is_Some (files w !! name) -> is_Some (files w !! walFileName) ->
   recoverSegment DeleteMarkerSuffix name st
   = Ok tt (Recovery
              (World (delete name (files w)) (now w) (faults w)
                 (trace w ++ [OpStat walFileName; OpRemove name]))
              (rec_segments st) (segmentIndex st)
              (segmentsAlreadyRecoveredFromCompaction st))) /\
  (forall f : file value,
   files w !! name = Some f -> files w !! walFileName = None ->
   file_open f = None -> (segmentIndex st < length (rec_segments st))%nat ->
   let seg := Segment name (ExistsOnLowerOf (segmentIndex st)) f in
   recoverSegment DeleteMarkerSuffix name st
   = Ok tt (Recovery
              (World (files w) (now w) (faults w)
                 (trace w ++ [OpStat walFileName; OpNewSegment name false]))
              (<[segmentIndex st := Some seg]> (rec_segments st)) (S (segmentIndex st))
              (segmentsAlreadyRecoveredFromCompaction st)) /\
   take (S (segmentIndex st)) (<[segmentIndex st := Some seg]> (rec_segments st))
   = take (segmentIndex st) (rec_segments st) ++ [Some seg]) /\
  (forall (f1 f2 : file value) (t : Z),
   exists st' : recovery value,
     newSegmentGroup segmentID DeleteMarkerSuffix
       (World {[ "segment-02.db" := f1; "segment-02.wal" := f2 ]} t (fun _ => None) [])
     = Ok (mkSegmentGroup [] t t) st' /\
     files (rec_world st') !! "segment-02.db" = None).
Proof.
  intros Hext Hdms Hrec Hnf w wal. repeat split.
  - by apply filepath_Ext_stem.
  - intros Hf Hwal. by apply recoverSegment_wal_present.
  - by apply recoverSegment_wal_absent.
  - by apply take_S_insert.
  - intros f1 f2 t. by apply recovery_scenario_S2.
Qed.

(** The body of the first loop on an entry [segment-<A>_<B>.db.tmp] whose
    stem gives exactly two IDs (with no I/O error from the environment),
    by the files [segment-<A>.db] (left) and [segment-<B>.db] (right)
    that are there; and the body of the second loop on an entry whose
    name the first loop recorded. *)
Lemma recoverCompacted_entry (st : recovery value) (name A B : string) :
  filepath_Ext name = ".tmp" ->
  filepath_Ext (strings_TrimSuffix name ".tmp") = ".db" ->
  strings_Split (segmentID (strings_TrimSuffix name ".tmp")) "_" = [A; B] ->
  (forall op, faults (rec_world st) op = None) ->
  let w := rec_world st in
  let left := segmentFilename A in
  let right := segmentFilename B in
  let idx := segmentIndex st in
  let claimed := segmentsAlreadyRecoveredFromCompaction st in
  (is_Some (files w !! left) -> is_Some (files w !! right) ->
   is_Some (files w !! name) ->
   recoverCompacted segmentID name st
   = Ok tt (Recovery
              (World (delete name (files w)) (now w) (faults w)
                 (trace w ++ [OpStat left; OpStat right; OpRemove name]))
              (rec_segments st) idx claimed)) /\
  (is_Some (files w !! left) -> files w !! right = None ->
   recoverCompacted segmentID name st
   = Fail (ErrMsg ("missing right segment " +:+ right))
       (Recovery
          (World (files w) (now w) (faults w) (trace w ++ [OpStat left; OpStat right]))
          (rec_segments st) idx claimed)) /\
  (forall fr ft : file value,
   files w !! left = None -> files w !! right = Some fr -> files w !! name = Some ft ->
   file_open fr = None -> file_close fr = None -> file_open ft = None ->
   (idx < length (rec_segments st))%nat ->
   recoverCompacted segmentID name st
   = Ok tt (Recovery
              (World (<[right := ft]> (delete name (delete right (files w))))
                 (now w) (faults w)
                 (trace w ++ [OpStat left; OpStat right;
                              OpNewSegment right false; OpClose right;
                              OpDropImmediately right; OpFsync;
                              OpRename name right; OpNewSegment right true]))
              (<[idx := Some (Segment right (ExistsOnLowerOf idx) ft)]> (rec_segments st))
              (S idx) ({[ right ]} ∪ claimed))) /\
  (forall ft : file value,
   files w !! left = None -> files w !! right = None -> files w !! name = Some ft ->
   file_open ft = None ->
   (idx < length (rec_segments st))%nat ->
   recoverCompacted segmentID name st
   = Ok tt (Recovery
              (World (<[right := ft]> (delete name (files w))) (now w) (faults w)
                 (trace w ++ [OpStat left; OpStat right;
                              OpRename name right; OpNewSegment right true]))
              (<[idx := Some (Segment right (ExistsOnLowerOf idx) ft)]> (rec_segments st))
              (S idx) ({[ right ]} ∪ claimed))) /\
  (DeleteMarkerSuffix <> ".db" ->
   forall st' : recovery value,
   right ∈ segmentsAlreadyRecoveredFromCompaction st' ->
   recoverSegment DeleteMarkerSuffix right st' = Ok tt st').
Proof.
  intros Hext Hext' Hids Hnf w left right idx claimed.
  assert (filepath_Ext right = ".db") as Hright
    by apply filepath_Ext_segmentFilename.
  assert (name <> right) as Hne by (intros E; rewrite E in Hext; congruence).
  destruct st as [[fs t flt tr] segs i rec]. simpl in *. subst w idx claimed.
  unfold recoverCompacted. rewrite Hext, Hext', Hids.
  rewrite (decide_False (P:=(".tmp" ≠ ".tmp"))) by (intros H; by apply H).
  rewrite (decide_False (P:=(".db" ≠ ".db"))) by (intros H; by apply H).
  cbn [length]. rewrite (decide_False (P:=(2 = 1)%nat)) by lia.
  rewrite (decide_False (P:=(2 ≠ 2)%nat)) by lia.
  change ([A; B] !!! 0%nat) with A. change ([A; B] !!! 1%nat) with B.
  fold left right. clearbody left right.
  unfold mbind, M_bind, try_io, fileExists. cbn [rec_world faults files logged].
  rewrite !Hnf.
  repeat split.
  - intros Hl Hr [ft Hf].
    rewrite (bool_decide_eq_true_2 (is_Some (fs !! left))) by done.
    rewrite (bool_decide_eq_true_2 (is_Some (fs !! right))) by done. cbn.
    unfold unit_io, os_Remove. cbn. rewrite Hnf, Hf.
    same_world.
  - intros Hl Hr.
    rewrite (bool_decide_eq_true_2 (is_Some (fs !! left))) by done.
    rewrite (bool_decide_eq_false_2 (is_Some (fs !! right)))
      by (rewrite Hr; by intros [? ?]). cbn.
    unfold fail_with. same_world.
  - intros fr ft Hl Hr Hf Hofr Hcfr Hoft Hidx.
    rewrite (bool_decide_eq_false_2 (is_Some (fs !! left)))
      by (rewrite Hl; by intros [? ?]).
    rewrite (bool_decide_eq_true_2 (is_Some (fs !! right))) by done. cbn.
    unfold get_state, newSegment. cbn. rewrite !Hnf, Hr, Hofr. cbn.
    unfold segment_close. cbn. rewrite Hcfr. cbn.
    unfold unit_io, dropImmediately. cbn. rewrite !Hnf. cbn.
    unfold os_Rename. cbn. rewrite !Hnf.
    rewrite lookup_delete_ne by done. rewrite Hf. cbn.
    unfold newSegment. cbn. rewrite ?Hnf, lookup_insert_eq, Hoft. cbn.
    unfold storeSegment. cbn. rewrite decide_True by done.
    unfold markRecovered. same_world.
  - intros ft Hl Hr Hf Hoft Hidx.
    rewrite (bool_decide_eq_false_2 (is_Some (fs !! left)))
      by (rewrite Hl; by intros [? ?]).
    rewrite (bool_decide_eq_false_2 (is_Some (fs !! right)))
      by (rewrite Hr; by intros [? ?]). cbn.
    unfold unit_io, os_Rename. cbn. rewrite !Hnf, Hf. cbn.
    unfold get_state, newSegment. cbn. rewrite !Hnf.
    rewrite lookup_insert_eq, Hoft. cbn.
    unfold storeSegment. cbn. rewrite decide_True by done.
    unfold markRecovered. same_world.
  - intros Hdms st' Hin. unfold recoverSegment.
    rewrite Hright.
    rewrite decide_False by congruence.
    rewrite (decide_False (P:=(".db" ≠ ".db"))) by (intros H; by apply H).
    unfold mbind, M_bind, get_state. by rewrite decide_True.
Qed.

(** *** The two loops over a listing *)

Implicit Types (st : recovery value).

Lemma forEach_app (body : string -> M value unit) (l1 l2 : list string) st :
  forEach body (l1 ++ l2) st
  = match forEach body l1 st with
    | Ok _ st' => forEach body l2 st'
    | Fail e st' => Fail e st'
    | Crash p => Crash p
    end.
Proof.
  revert st. induction l1 as [|x l1 IH]; intros st; [done|].
  cbn [app forEach]. unfold mbind, M_bind.
  destruct (body x st) as [[] st'|e st'|p]; [apply IH|done..].
Qed.

Lemma newSegmentGroup_unfold (w : world value) :
  faults w OpReadDir = None ->
  newSegmentGroup segmentID DeleteMarkerSuffix w
  = (forEach (recoverCompacted segmentID)
       (merge_sort String.le (elements (dom (files w))));;
     afterFirstLoop DeleteMarkerSuffix
       (merge_sort String.le (elements (dom (files w)))) (now w))
      (Recovery (logged OpReadDir w)
         (replicate (length (merge_sort String.le (elements (dom (files w))))) None)
         0 ∅).
Proof.
  intros H. unfold newSegmentGroup, os_ReadDir. by rewrite H.
Qed.

Lemma recoverCompacted_claimed (name : string) st :
  match recoverCompacted segmentID name st with
  | Ok _ st' => segmentsAlreadyRecoveredFromCompaction st
                ⊆ segmentsAlreadyRecoveredFromCompaction st' /\
                faults (rec_world st') = faults (rec_world st)
  | _ => True
  end.
Proof.
  unfold recoverCompacted. run_recovery; try done; split; try done; set_solver.
Qed.

Lemma recoverSegment_claimed (name : string) st :
  match recoverSegment DeleteMarkerSuffix name st with
  | Ok _ st' => segmentsAlreadyRecoveredFromCompaction st'
                = segmentsAlreadyRecoveredFromCompaction st
  | _ => True
  end.
Proof.
  unfold recoverSegment. run_recovery; done.
Qed.

Lemma forEach_recoverCompacted_claimed (l : list string) st st1 :
  forEach (recoverCompacted segmentID) l st = Ok tt st1 ->
  segmentsAlreadyRecoveredFromCompaction st
  ⊆ segmentsAlreadyRecoveredFromCompaction st1 /\
  faults (rec_world st1) = faults (rec_world st).
Proof.
  revert st. induction l as [|x l IH]; intros st.
  - by intros [= ->].
  - cbn [forEach]. unfold mbind, M_bind.
    pose proof (recoverCompacted_claimed x st) as H.
    destruct (recoverCompacted segmentID x st) as [[] st'|e st'|p]; [|done..].
    intros Hrun. destruct H as [Hsub Hflt].
    specialize (IH _ Hrun). destruct IH as [Hsub' Hflt'].
    split; [set_solver|congruence].
Qed.

Lemma forEach_recoverSegment_skips (name : string) (l1 l2 : list string) st :
  filepath_Ext name = ".db" ->
  DeleteMarkerSuffix <> ".db" ->
  name ∈ segmentsAlreadyRecoveredFromCompaction st ->
  forEach (recoverSegment DeleteMarkerSuffix) (l1 ++ name :: l2) st
  = forEach (recoverSegment DeleteMarkerSuffix) (l1 ++ l2) st.
Proof.
  intros Hext Hdms. revert st. induction l1 as [|x l1 IH]; intros st Hin.
  - cbn [app forEach]. unfold mbind at 1, M_bind at 1.
    assert (recoverSegment DeleteMarkerSuffix name st = Ok tt st) as ->; [|done].
    unfold recoverSegment. rewrite Hext.
    rewrite decide_False by congruence.
    rewrite (decide_False (P:=(".db" ≠ ".db"))) by (intros H; by apply H).
    unfold mbind, M_bind, get_state. by rewrite decide_True.
  - cbn [app forEach]. unfold mbind, M_bind.
    pose proof (recoverSegment_claimed x st) as H.
    destruct (recoverSegment DeleteMarkerSuffix x st) as [[] st'|e st'|p]; [|done..].
    apply IH. by rewrite H.
Qed.

(** The recovery, from the state in which the first loop meets [name]:
    the step on [name], then the rest of the first loop and what
    follows it. *)
Lemma newSegmentGroup_at_entry (w : world value) (pre post : list string)
    (name : string) st :
  faults w OpReadDir = None ->
  merge_sort String.le (elements (dom (files w))) = pre ++ name :: post ->
  forEach (recoverCompacted segmentID) pre
    (Recovery (logged OpReadDir w)
       (replicate (length (pre ++ name :: post)) None) 0 ∅) = Ok tt st ->
  newSegmentGroup segmentID DeleteMarkerSuffix w
  = match recoverCompacted segmentID name st with
    | Ok _ st' =>
        (forEach (recoverCompacted segmentID) post;;
         afterFirstLoop DeleteMarkerSuffix (pre ++ name :: post) (now w)) st'
    | Fail e st' => Fail e st'
    | Crash p => Crash p
    end.
Proof.
  intros Hrd Hlist Hpre. rewrite newSegmentGroup_unfold, Hlist by done.
  unfold mbind at 1, M_bind at 1. rewrite forEach_app, Hpre.
  cbn [forEach]. unfold mbind at 1, M_bind at 1.
  by destruct (recoverCompacted segmentID name st) as [[] st'|e st'|p].
Qed.

(** C2. In the first pass of the recovery of a directory (with no I/O
    error from the environment), when the loop reaches an entry
    [segment-<A>_<B>.db.tmp] whose stem gives exactly two IDs, what
    [newSegmentGroup] does depends on the files [segment-<A>.db] (left)
    and [segment-<B>.db] (right) that are there at that point. With
    both, the entry is removed and the recovery goes on with the entries
    after it. With the left one alone, the recovery as a whole fails
    with [missing right segment]. With the right one alone, the right
    file is opened, closed and dropped at once, the directory is synced,
    the entry is renamed to the right name and opened; with none, the
    entry is renamed to the right name and opened; in both of these the
    segment is stored as the next element, the right name is recorded,
    and the recovery goes on with the entries after it. A name that is
    recorded when the rest of the first pass starts is still recorded
    when the second pass starts, and the second pass then does the same
    as on a listing without that name. *)
Theorem recoverCompacted_cases (w : world value) (pre post : list string)
    (st : recovery value) (name A B : string) :
  (forall op, faults w op = None) ->
  merge_sort String.le (elements (dom (files w))) = pre ++ name :: post ->
  forEach (recoverCompacted segmentID) pre
    (Recovery (logged OpReadDir w)
       (replicate (length (pre ++ name :: post)) None) 0 ∅) = Ok tt st ->
  filepath_Ext name = ".tmp" ->
  filepath_Ext (strings_TrimSuffix name ".tmp") = ".db" ->
  strings_Split (segmentID (strings_TrimSuffix name ".tmp")) "_" = [A; B] ->
  let ws := rec_world st in
  let left := segmentFilename A in
  let right := segmentFilename B in
  let idx := segmentIndex st in
  let claimed := segmentsAlreadyRecoveredFromCompaction st in
  let rest := (forEach (recoverCompacted segmentID) post;;
               afterFirstLoop DeleteMarkerSuffix (pre ++ name :: post) (now w)) in
  (is_Some (files ws !! left) -> is_Some (files ws !! right) ->
   is_Some (files ws !! name) ->
   newSegmentGroup segmentID DeleteMarkerSuffix w
   = rest (Recovery
             (World (delete name (files ws)) (now ws) (faults ws)
                (trace ws ++ [OpStat left; OpStat right; OpRemove name]))
             (rec_segments st) idx claimed)) /\
  (is_Some (files ws !! left) -> files ws !! right = None ->
   newSegmentGroup segmentID DeleteMarkerSuffix w
   = Fail (ErrMsg ("missing right segment " +:+ right))
       (Recovery
          (World (files ws) (now ws) (faults ws)
             (trace ws ++ [OpStat left; OpStat right]))
          (rec_segments st) idx claimed)) /\
  (forall fr ft : file value,
   files ws !! left = None -> files ws !! right = Some fr ->
   files ws !! name = Some ft ->
   file_open fr = None -> file_close fr = None -> file_open ft = None ->
   (idx < length (rec_segments st))%nat ->
   newSegmentGroup segmentID DeleteMarkerSuffix w
   = rest (Recovery
             (World (<[right := ft]> (delete name (delete right (files ws))))
                (now ws) (faults ws)
                (trace ws ++ [OpStat left; OpStat right;
                              OpNewSegment right false; OpClose right;
                              OpDropImmediately right; OpFsync;
                              OpRename name right; OpNewSegment right true]))
             (<[idx := Some (Segment right (ExistsOnLowerOf idx) ft)]> (rec_segments st))
             (S idx) ({[ right ]} ∪ claimed))) /\
  (forall ft : file value,
   files ws !! left = None -> files ws !! right = None ->
   files ws !! name = Some ft ->
   file_open ft = None ->
   (idx < length (rec_segments st))%nat ->
   newSegmentGroup segmentID DeleteMarkerSuffix w
   = rest (Recovery
             (World (<[right := ft]> (delete name (files ws))) (now ws) (faults ws)
                (trace ws ++ [OpStat left; OpStat right;
                              OpRename name right; OpNewSegment right true]))
             (<[idx := Some (Segment right (ExistsOnLowerOf idx) ft)]> (rec_segments st))
             (S idx) ({[ right ]} ∪ claimed))) /\
  (DeleteMarkerSuffix <> ".db" ->
   forall (st' st1 : recovery value) (l1 l2 : list string) (t : Z),
   right ∈ segmentsAlreadyRecoveredFromCompaction st' ->
   forEach (recoverCompacted segmentID) post st' = Ok tt st1 ->
   afterFirstLoop DeleteMarkerSuffix (l1 ++ right :: l2) t st1
   = afterFirstLoop DeleteMarkerSuffix (l1 ++ l2) t st1).
Proof.
  intros Hnf Hlist Hpre Hext Hext' Hids ws left right idx claimed rest.
  pose proof (newSegmentGroup_at_entry w pre post name st (Hnf _) Hlist Hpre) as Hrun.
  destruct (forEach_recoverCompacted_claimed _ _ _ Hpre) as [_ Hflt].
  cbn [rec_world faults logged] in Hflt.
  assert (forall op, faults (rec_world st) op = None) as Hnf'
    by (intros op; by rewrite Hflt).
  destruct (recoverCompacted_entry st name A B
              Hext Hext' Hids Hnf') as (Hboth & Hleft & Hright & Hnone & _).
  repeat split.
  - intros Hl Hr Hf. by rewrite Hrun, Hboth.
  - intros Hl Hr. by rewrite Hrun, Hleft.
  - intros fr ft Hl Hr Hf Hofr Hcfr Hoft Hidx.
    by rewrite Hrun, (Hright fr ft).
  - intros ft Hl Hr Hf Hoft Hidx. by rewrite Hrun, (Hnone ft).
  - intros Hdms st' st1 l1 l2 t Hin Hpost.
    destruct (forEach_recoverCompacted_claimed _ _ _ Hpost) as [Hsub _].
    unfold afterFirstLoop. unfold mbind at 1 4, M_bind at 1 4.
    rewrite (forEach_recoverSegment_skips right)
      by (first [apply filepath_Ext_segmentFilename | done | set_solver]).
    done.
Qed.
End RecoveryClaims.

(** C3 on the directory of scenario S2. *)
Lemma recoverSegment_wal_rule_witness :
  filepath_Ext "segment-02.db" = ".db" /\
  recoverSegment ".deleteme" "segment-02.db" (Recovery world_S2 [None; None] 0 ∅)
  = Ok tt (Recovery
             (World (delete "segment-02.db" (files world_S2)) 100 (faults world_S2)
                [OpStat "segment-02.wal"; OpRemove "segment-02.db"])
             [None; None] 0 ∅).
Proof.
  split; [reflexivity|].
  assert ("segment-02.db" ∉ (∅ : gset string)) as Hrec by set_solver.
  destruct (recoverSegment_wal_rule segmentID_spec ".deleteme"
              (Recovery world_S2 [None; None] 0 ∅) "segment-02.db"
              eq_refl ltac:(discriminate) Hrec (fun _ => eq_refl))
    as (_ & Hwal & _).
  apply Hwal; eexists; vm_compute; reflexivity.
Defined.

(** C2 on the directory of scenario S5, where the recovery fails, and on
    a directory where the right input of the compaction is still there:
    it is replaced by the output and mounted once. *)
Lemma recoverCompacted_cases_witness :
  (exists st,
     newSegmentGroup segmentID_spec ".deleteme"
       (directoryOf ["segment-01.db"; "segment-01_02.db.tmp"])
     = Fail (ErrMsg "missing right segment segment-02.db") st) /\
  (exists st,
     newSegmentGroup segmentID_spec ".deleteme"
       (directoryOf ["segment-02.db"; "segment-01_02.db.tmp"])
     = Ok (mkSegmentGroup
             [Some (Segment "segment-02.db" (ExistsOnLowerOf 0) (tableWith key_k val_v1 []))]
             100 100) st).
Proof.
  split.
  - destruct (recoverCompacted_cases segmentID_spec ".deleteme"
                (directoryOf ["segment-01.db"; "segment-01_02.db.tmp"])
                ["segment-01.db"] []
                (Recovery (logged OpReadDir
                             (directoryOf ["segment-01.db"; "segment-01_02.db.tmp"]))
                   [None; None] 0 ∅)
                "segment-01_02.db.tmp" "01" "02"
                (fun _ => eq_refl) eq_refl eq_refl eq_refl eq_refl eq_refl)
      as (_ & Hleft & _).
    eexists. apply Hleft; [eexists|]; vm_compute; reflexivity.
  - destruct (recoverCompacted_cases segmentID_spec ".deleteme"
                (directoryOf ["segment-02.db"; "segment-01_02.db.tmp"])
                [] ["segment-02.db"]
                (Recovery (logged OpReadDir
                             (directoryOf ["segment-02.db"; "segment-01_02.db.tmp"]))
                   [None; None] 0 ∅)
                "segment-01_02.db.tmp" "01" "02"
                (fun _ => eq_refl) eq_refl eq_refl eq_refl eq_refl eq_refl)
      as (_ & _ & Hright & _).
    eexists.
    etrans; [apply (Hright (tableWith key_k val_v1 []) (tableWith key_k val_v1 []));
             first [vm_compute; reflexivity | simpl; lia]|].
    vm_compute. reflexivity.
Defined.

(** ** The scenarios of the specification, run on the model *)

Example scenario_S1 :
  recovered (directoryOf ["segment-01.db"; "segment-02.db"; "segment-03.db"])
  = inl (inl (["segment-01.db"; "segment-02.db"; "segment-03.db"],
              ["segment-01.db"; "segment-02.db"; "segment-03.db"])).
Proof. vm_compute. reflexivity. Qed.

Example scenario_S2 :
  recovered (directoryOf ["segment-02.db"; "segment-02.wal"])
  = inl (inl ([], ["segment-02.wal"])).
Proof. vm_compute. reflexivity. Qed.

Example scenario_S3 :
  recovered (directoryOf ["segment-01.db"; "segment-02.db"; "segment-01_02.db.tmp"])
  = inl (inl (["segment-01.db"; "segment-02.db"], ["segment-01.db"; "segment-02.db"])).
Proof. vm_compute. reflexivity. Qed.

Example scenario_S4 :
  recovered (directoryOf ["segment-01_02.db.tmp"])
  = inl (inl (["segment-02.db"], ["segment-02.db"])).
Proof. vm_compute. reflexivity. Qed.

Example scenario_S5 :
  recovered (directoryOf ["segment-01.db"; "segment-01_02.db.tmp"])
  = inl (inr (ErrMsg "missing right segment segment-02.db")).
Proof. vm_compute. reflexivity. Qed.

(** A compaction that was published but whose right input is still
    there: the right file is dropped and replaced by the output. *)
Example scenario_right_input_left :
  recovered (directoryOf ["segment-02.db"; "segment-01_02.db.tmp"])
  = inl (inl (["segment-02.db"], ["segment-02.db"])).
Proof. vm_compute. reflexivity. Qed.

Example scenario_S6 :
  get [Some seg_v1; Some seg_tombstone] key_k = Return (None, None) /\
  getErrDeleted [Some seg_v1; Some seg_tombstone] key_k = Return (None, Some Deleted).
Proof. split; reflexivity. Qed.

(** * Further properties of the group *)

(** ** The two lookups by primary key *)

Section ReaderExtras.
Context {value : Type}.
Implicit Types (s : segment value) (key : bytes).
Implicit Types (segs older newer : list (segment value)).

Lemma getFrom_dropError (l : list (option (segment value))) key (i : nat) :
  getFrom l key i = dropError (getFromErrDeleted l key i).
Proof.
  induction i as [|i IH]; simpl;
    destruct (l !! _) as [[s|]|]; try reflexivity;
    destruct (segment_get s key) as [v [e|]]; try reflexivity;
    destruct (errors_Is e NotFound); try reflexivity; try apply IH;
    destruct (errors_Is e Deleted); reflexivity.
Qed.

(** X1. On every sequence of slots, [get] answers what [getErrDeleted]
    answers with the error dropped: the same value when there is one,
    [nil] without error where [getErrDeleted] reports [NotFound] or
    [Deleted], and the same panic. *)
Theorem get_is_getErrDeleted_without_error (l : list (option (segment value))) key :
  get l key = dropError (getErrDeleted l key).
Proof.
  unfold get, getErrDeleted, getWithUpperSegmentBoundary,
    getWithUpperSegmentBoundaryErrDeleted.
  destruct (decide _); [apply getFrom_dropError | reflexivity].
Qed.

(** X2. [get] returns a value that is not [nil] exactly when some slot
    holds a segment with that value for the key and every newer slot
    holds a segment that answers [NotFound]: a value returned is held
    by a segment of the sequence. *)
Theorem get_value_iff (l : list (option (segment value))) key (v : bytes) :
  get l key = Return (Some v, None) <->
  exists (j : nat) s,
    l !! j = Some (Some s) /\ segment_get s key = (Some v, None) /\
    forall j' : nat, (j < j' < length l)%nat ->
      exists s', l !! j' = Some (Some s') /\ reportsNotFound s' key = true.
Proof.
  rewrite get_unfold. destruct l as [|x l'] eqn:E.
  { split; [discriminate|]. intros (j & s & Hl & _). by rewrite lookup_nil in Hl. }
  rewrite <- E. assert (0 < length l)%nat as Hlen by (subst; simpl; lia).
  clear E. rewrite getFrom_value. split.
  - intros (j & s & Hj & Hl & Hg & Hn). exists j, s. repeat split; auto.
    intros j' ?. apply Hn. lia.
  - intros (j & s & Hl & Hg & Hn). exists j, s. repeat split; auto.
    + apply lookup_lt_Some in Hl. lia.
    + intros j' ?. apply Hn. lia.
Qed.

(** X3. [getErrDeleted] reports the sentinel [NotFound] exactly when
    every segment answers [NotFound] for the key, and then with no
    value: a tombstone or a value anywhere in the sequence is never
    reported as [NotFound]. *)
Theorem getErrDeleted_NotFound_iff segs key (v : option bytes) :
  getErrDeleted (Some <$> segs) key = Return (v, Some NotFound) <->
  v = None /\ Forall (fun s => reportsNotFound s key = true) segs.
Proof.
  induction segs as [|s segs IH] using rev_ind.
  - simpl. rewrite getErrDeleted_unfold. split.
    + intros [= <-]. by split.
    + by intros [-> _].
  - rewrite fmap_app. simpl. rewrite getErrDeleted_snoc, Forall_app, Forall_singleton.
    unfold answerOfErrDeleted, reportsNotFound.
    destruct (segment_get s key) as [v' [e|]].
    + destruct (errors_Is e NotFound) eqn:N.
      * rewrite IH. intuition.
      * destruct (errors_Is e Deleted).
        -- split; [|intros (_ & _ & ?); discriminate].
           intros [= _ ->]. by rewrite errors_Is_refl in N.
        -- split; [discriminate | intros (_ & _ & ?); discriminate].
    + split; [discriminate | intros (_ & _ & ?); discriminate].
Qed.

(** X4. The predicate made for an index above the length of the
    sequence panics on an index out of range, as does the walk from the
    boundary it uses: a predicate outlives the segments it was made
    over only to panic (so after a shutdown has set the sequence to
    [nil], for every index but 0). *)
Theorem makeExistsOnLower_stale_index (l : list (option (segment value)))
  (i : nat) key :
  (length l < i)%nat ->
  makeExistsOnLower l i key = Panic IndexOutOfRange /\
  getWithUpperSegmentBoundary l key (Z.of_nat i - 1) = Panic IndexOutOfRange.
Proof.
  intros Hi.
  assert (getWithUpperSegmentBoundary l key (Z.of_nat i - 1) = Panic IndexOutOfRange)
    as H.
  { unfold getWithUpperSegmentBoundary. destruct (decide _) as [_|?]; [|lia].
    destruct (Z.to_nat (Z.of_nat i - 1)) eqn:E; simpl;
      by rewrite lookup_ge_None_2 by lia. }
  split; [|done]. unfold makeExistsOnLower.
  destruct (decide (i = 0%nat)); [lia|]. by rewrite H.
Qed.

End ReaderExtras.

(** X4 on the sequence a shutdown leaves, for the predicate of the
    second segment. *)
Lemma makeExistsOnLower_stale_index_witness :
  (length ([] : list (option (segment string))) < 1)%nat /\
  makeExistsOnLower ([] : list (option (segment string))) 1 key_k
  = Panic IndexOutOfRange.
Proof.
  assert (length ([] : list (option (segment string))) < 1)%nat as H by (simpl; lia).
  split; [exact H|].
  exact (proj1 (makeExistsOnLower_stale_index [] 1 key_k H)).
Defined.

(** ** The lookup by secondary key, the layered reads and the count *)

Section OtherReaderExtras.
Context {value BitmapLayer : Type}.
Context (bySecondary :
           segment value -> Z -> bytes -> option bytes ->
           (option bytes * option bytes * option bytes) * option error).
Context (roaring : segment value -> bytes -> BitmapLayer * option error).
Context (strategy : segment value -> Z) (StrategyInverted : Z).
Implicit Types (s : segment value) (key : bytes).
Implicit Types (segs older newer : list (segment value)).

Local Abbreviation secondaryFrom := (getBySecondaryFrom bySecondary).
Local Abbreviation secondary := (getBySecondaryIntoMemory bySecondary).
Local Abbreviation roaringFrom := (roaringSetGetFrom roaring).
Local Abbreviation layer := (layerOf roaring).
Local Abbreviation layers := (layersOf strategy StrategyInverted).
Local Abbreviation kept := (keptLayer strategy StrategyInverted).
Local Abbreviation collectFrom := (getCollectionAndSegmentsFrom strategy StrategyInverted).

Lemma getBySecondaryFrom_app_l (l1 l2 : list (option (segment value)))
  pos key buffer (i : nat) :
  (i < length l1)%nat ->
  secondaryFrom (l1 ++ l2) pos key buffer i = secondaryFrom l1 pos key buffer i.
Proof.
  induction i as [|i IH]; intros Hi; simpl;
    rewrite (lookup_app_l l1 l2) by lia;
    destruct (l1 !! _) as [[s|]|]; try reflexivity;
    destruct (bySecondary s pos key buffer) as [kvb [e|]]; try reflexivity;
    destruct (errors_Is e NotFound); try reflexivity.
  apply IH. lia.
Qed.

Lemma getBySecondaryIntoMemory_snoc (l : list (option (segment value))) s
  pos key buffer :
  secondary (l ++ [Some s]) pos key buffer =
  match bySecondary s pos key buffer with
  | (kvb, None) => Return (kvb, None)
  | (_, Some e) =>
      if errors_Is e NotFound then secondary l pos key buffer
      else if errors_Is e Deleted then Return ((None, None, None), None)
      else Panic (UnsupportedError e)
  end.
Proof.
  unfold getBySecondaryIntoMemory. rewrite length_app. simpl.
  destruct (decide _) as [_|H]; [|lia].
  replace (Z.to_nat (Z.of_nat (length l + 1) - 1)) with (length l) by lia.
  assert ((l ++ [Some s]) !! length l = Some (Some s)) as Hl
    by (by rewrite lookup_app_r, Nat.sub_diag).
  destruct (length l) as [|n] eqn:E; simpl; rewrite Hl;
    destruct (bySecondary s pos key buffer) as [kvb [e|]]; try reflexivity;
    destruct (errors_Is e NotFound); try reflexivity.
  destruct (decide _) as [_|?]; [|lia].
  replace (Z.to_nat (Z.of_nat (S n) - 1)) with n by lia.
  apply getBySecondaryFrom_app_l. lia.
Qed.

(** X5. [getBySecondaryIntoMemory] goes from the newest segment to the
    oldest as [get] does: the segments that answer [NotFound] are
    passed over; the newest one left decides: its key, value and buffer
    are returned; on [NotFound] the older segments are asked; on
    [Deleted] all three results are [nil] without error; any other
    error panics. *)
Theorem getBySecondaryIntoMemory_newest_wins older s newer pos key buffer :
  Forall (fun s' => exists kvb e, bySecondary s' pos key buffer = (kvb, Some e) /\
                                  errors_Is e NotFound = true) newer ->
  secondary (Some <$> (older ++ s :: newer)) pos key buffer =
  match bySecondary s pos key buffer with
  | (kvb, None) => Return (kvb, None)
  | (_, Some e) =>
      if errors_Is e NotFound then secondary (Some <$> older) pos key buffer
      else if errors_Is e Deleted then Return ((None, None, None), None)
      else Panic (UnsupportedError e)
  end.
Proof.
  induction newer as [|s' newer IH] using rev_ind; intros H.
  - rewrite fmap_app. simpl. apply getBySecondaryIntoMemory_snoc.
  - apply Forall_app in H as [H1 H2]. rewrite Forall_singleton in H2.
    destruct H2 as (kvb & e & Hs' & He).
    replace (older ++ s :: newer ++ [s']) with ((older ++ s :: newer) ++ [s'])
      by (by rewrite <- app_assoc).
    rewrite fmap_app. simpl. rewrite getBySecondaryIntoMemory_snoc, Hs', He.
    by apply IH.
Qed.

Lemma roaringSetGetFrom_app segs (rest : list (option (segment value))) key
  (out : list BitmapLayer) :
  Forall (fun s => forall rs e, roaring s key = (rs, Some e) ->
                                errors_Is e NotFound = true) segs ->
  roaringFrom ((Some <$> segs) ++ rest) key out =
  roaringFrom rest key (out ++ concat ((fun s => layer s key) <$> segs)).
Proof.
  revert out. induction segs as [|s segs IH]; intros out H; simpl.
  - by rewrite app_nil_r.
  - apply Forall_cons in H as [Hs H]. unfold layerOf at 1.
    destruct (roaring s key) as [rs [e|]].
    + rewrite (Hs rs e eq_refl). simpl. by apply IH.
    + rewrite IH by done. by rewrite <- app_assoc.
Qed.

(** X6. [roaringSetGet] returns one layer for each segment that
    answers without error, oldest first, and passes over the segments
    that answer [NotFound], so never more layers than segments; any
    other error of a segment is returned with no layer at all. *)
Theorem roaringSetGet_layers segs (bad : segment value)
  (rest : list (option (segment value))) key (rs : BitmapLayer) e :
  Forall (fun s => forall rs e, roaring s key = (rs, Some e) ->
                                errors_Is e NotFound = true) segs ->
  roaring bad key = (rs, Some e) ->
  errors_Is e NotFound = false ->
  roaringSetGet roaring (Some <$> segs) key
  = Return (concat ((fun s => layer s key) <$> segs), None) /\
  (length (concat ((fun s => layer s key) <$> segs)) <= length segs)%nat /\
  roaringSetGet roaring ((Some <$> segs) ++ Some bad :: rest) key = Return ([], Some e).
Proof.
  intros Hok Hbad He. unfold roaringSetGet. repeat split.
  - rewrite <- (app_nil_r (Some <$> segs)). by rewrite roaringSetGetFrom_app.
  - clear. induction segs as [|s segs IH]; [done|].
    rewrite fmap_cons. cbn [concat]. rewrite length_app, length_cons.
    unfold layerOf at 1.
    destruct (roaring s key) as [? [?|]]; cbn [length]; lia.
  - rewrite roaringSetGetFrom_app by done. simpl. by rewrite Hbad, He.
Qed.

Lemma getCollectionAndSegmentsFrom_app segs (tl : list (option (segment value))) key :
  Forall (fun s => collectionOk s key) segs ->
  forall (outd : list (list value)) (segd : list (option (segment value))) (n : nat),
  length outd = length segd ->
  (length segs <= n)%nat ->
  collectFrom ((Some <$> segs) ++ tl) key
    (outd ++ replicate n []) (segd ++ replicate n None) (length outd)
  = collectFrom tl key
      ((outd ++ ((fun s => (segment_getCollection s key).1) <$> layers segs key))
         ++ replicate (n - length (layers segs key)) [])
      ((segd ++ (Some <$> layers segs key))
         ++ replicate (n - length (layers segs key)) None)
      (length (outd ++ ((fun s => (segment_getCollection s key).1) <$> layers segs key))).
Proof.
  induction 1 as [|s segs Hs _ IH]; intros outd segd n Hlen Hn.
  - simpl. by rewrite !app_nil_r, Nat.sub_0_r.
  - rewrite fmap_cons. cbn [app getCollectionAndSegmentsFrom].
    assert (forall v,
      kept s key = true -> (segment_getCollection s key).1 = v ->
      (if decide (length outd < length (outd ++ replicate n []))%nat then
         collectFrom ((Some <$> segs) ++ tl) key
           (<[length outd := v]> (outd ++ replicate n []))
           (<[length outd := Some s]> (segd ++ replicate n None)) (S (length outd))
       else Panic IndexOutOfRange)
      = collectFrom tl key
          ((outd ++ ((fun s => (segment_getCollection s key).1)
                       <$> layers (s :: segs) key))
             ++ replicate (n - length (layers (s :: segs) key)) [])
          ((segd ++ (Some <$> layers (s :: segs) key))
             ++ replicate (n - length (layers (s :: segs) key)) None)
          (length (outd ++ ((fun s => (segment_getCollection s key).1)
                              <$> layers (s :: segs) key)))) as Hstore.
    { intros v Hk Hv. simpl in Hn. destruct n as [|n]; [lia|].
      rewrite decide_True by (rewrite length_app, length_replicate; lia).
      cbn [replicate]. rewrite insert_middle.
      assert (<[length outd := Some s]> (segd ++ None :: replicate n None)
              = segd ++ Some s :: replicate n None) as ->
        by (rewrite Hlen; apply insert_middle).
      specialize (IH (outd ++ [v]) (segd ++ [Some s]) n).
      rewrite !length_app in IH. cbn [length] in IH.
      rewrite <- !app_assoc in IH. cbn [app] in IH.
      rewrite Nat.add_1_r in IH. rewrite IH by lia.
      unfold layersOf. rewrite filter_cons_True by done.
      rewrite !fmap_cons, Hv. cbn [length].
      rewrite <- !app_assoc. cbn [app].
      rewrite !length_app. cbn [length].
      rewrite <- !plus_n_Sm. done. }
    unfold collectionOk in Hs. pose proof (Hstore (segment_getCollection s key).1) as Hst.
    unfold keptLayer in Hst at 1.
    destruct (segment_getCollection s key) as [v [e|]] eqn:G.
    + rewrite Hs. cbn [negb].
      destruct (decide (strategy s <> StrategyInverted)) as [Hinv|Hinv].
      * rewrite IH by (simpl in Hn; lia || done).
        unfold layersOf. rewrite filter_cons_False; [done|].
        unfold keptLayer. rewrite G. rewrite bool_decide_eq_false_2 by done. done.
      * apply Hst; [|done]. apply bool_decide_eq_true_2.
        destruct (decide (strategy s = StrategyInverted)); [done|]. by destruct Hinv.
    + by apply Hst.
Qed.

(** X7. [getCollectionAndSegments] returns, oldest first, the segments
    that answer without error, and the inverted segments that answer
    [NotFound], each with the values it gave, in two slices of the same
    length; a segment of another strategy that answers [NotFound] is
    passed over; any other error is returned with nothing else. *)
Theorem getCollectionAndSegments_layers segs (bad : segment value)
  (rest : list (option (segment value))) key (v : list value) e :
  Forall (fun s => collectionOk s key) segs ->
  segment_getCollection bad key = (v, Some e) ->
  errors_Is e NotFound = false ->
  getCollectionAndSegments strategy StrategyInverted (Some <$> segs) key
  = Return (((fun s => (segment_getCollection s key).1) <$> layers segs key,
             Some <$> layers segs key), None) /\
  getCollectionAndSegments strategy StrategyInverted
    ((Some <$> segs) ++ Some bad :: rest) key
  = Return (([], []), Some e).
Proof.
  intros Hok Hbad He. unfold getCollectionAndSegments. split.
  - pose proof (getCollectionAndSegmentsFrom_app segs [] key Hok [] []
                  (length (Some <$> segs)) eq_refl) as H.
    rewrite app_nil_r in H. cbn [app length] in H. rewrite H by (by rewrite length_fmap).
    cbn [getCollectionAndSegmentsFrom].
    rewrite take_app_length.
    rewrite take_app_length' by (by rewrite !length_fmap).
    done.
  - pose proof (getCollectionAndSegmentsFrom_app segs (Some bad :: rest) key Hok [] []
                  (length ((Some <$> segs) ++ Some bad :: rest)) eq_refl) as H.
    cbn [app length] in H.
    rewrite H by (rewrite length_app, length_fmap; lia).
    cbn [getCollectionAndSegmentsFrom]. by rewrite Hbad, He.
Qed.


Lemma wrap_int_add_l (a b : Z) : wrap_int (wrap_int a + b) = wrap_int (a + b).
Proof.
  unfold wrap_int.
  replace ((a + 2 ^ 63) mod 2 ^ 64 - 2 ^ 63 + b + 2 ^ 63)
    with ((a + 2 ^ 63) mod 2 ^ 64 + b) by lia.
  rewrite Zplus_mod_idemp_l. do 2 f_equal. lia.
Qed.

Lemma wrap_int_small (z : Z) : - 2 ^ 63 <= z < 2 ^ 63 -> wrap_int z = z.
Proof.
  intros H. unfold wrap_int. rewrite Z.mod_small; lia.
Qed.

Lemma countFrom_sum segs (c : Z) :
  countFrom (Some <$> segs) (wrap_int c) = Return (wrap_int (c + netAdditions segs)).
Proof.
  revert c. induction segs as [|s segs IH]; intros c; simpl.
  - by rewrite Z.add_0_r.
  - rewrite wrap_int_add_l, IH. do 2 f_equal. lia.
Qed.

(** X9. [count] is the sum of the net additions of the segments
    whenever that sum fits an [int], even when a sum on the way goes
    over and wraps. *)
Theorem count_is_sum segs :
  - 2 ^ 63 <= netAdditions segs < 2 ^ 63 ->
  count (Some <$> segs) = Return (netAdditions segs).
Proof.
  intros H. unfold count. change 0 with (wrap_int 0).
  rewrite countFrom_sum, Z.add_0_l. by rewrite wrap_int_small.
Qed.

End OtherReaderExtras.

(** X5 on a value, a tombstone over it and a newest segment without the
    key. *)
Lemma getBySecondaryIntoMemory_newest_wins_witness :
  getBySecondaryIntoMemory secondaryOf
    (Some <$> ([seg_v1] ++ seg_tombstone :: [seg_empty])) 0 key_k None
  = Return ((None, None, None), None).
Proof.
  assert (Forall (fun s' => exists kvb e, secondaryOf s' 0 key_k None = (kvb, Some e) /\
                                          errors_Is e NotFound = true) [seg_empty]) as H.
  { constructor; [|constructor]. by eexists _, _. }
  exact (getBySecondaryIntoMemory_newest_wins secondaryOf
           [seg_v1] seg_tombstone [seg_empty] 0 key_k None H).
Defined.

(** X6 on three segments the second of which is without the key. *)
Lemma roaringSetGet_layers_witness :
  roaringSetGet roaringOf (Some <$> [seg_v1; seg_empty; seg_v1]) key_k
  = Return ([2%nat; 2%nat], None) /\
  roaringSetGet roaringOf
    ((Some <$> [seg_v1; seg_empty; seg_v1]) ++ Some seg_broken :: [Some seg_v1]) key_k
  = Return ([], Some (ErrMsg "read: input/output error")).
Proof.
  assert (Forall (fun s => forall rs e, roaringOf s key_k = (rs, Some e) ->
                                        errors_Is e NotFound = true)
            [seg_v1; seg_empty; seg_v1]) as H.
  { repeat constructor; intros rs e Hr; vm_compute in Hr; by simplify_eq. }
  destruct (roaringSetGet_layers roaringOf [seg_v1; seg_empty; seg_v1] seg_broken
              [Some seg_v1] key_k 0%nat (ErrMsg "read: input/output error")
              H eq_refl eq_refl) as (H1 & _ & H3).
  exact (conj H1 H3).
Defined.

(** X7 on a segment with values, a segment of another strategy without
    the key (passed over), the inverted segment without the key (kept)
    and a segment with no value left under the key. *)
Lemma getCollectionAndSegments_layers_witness :
  getCollectionAndSegments strategyOf 5
    (Some <$> [seg_v1; seg_empty4; seg_empty; seg_tombstone]) key_k
  = Return (([["a"; "b"]; []; []],
             [Some seg_v1; Some seg_empty; Some seg_tombstone]), None).
Proof.
  assert (Forall (fun s => collectionOk s key_k)
            [seg_v1; seg_empty4; seg_empty; seg_tombstone]) as H
    by (repeat constructor).
  exact (proj1 (getCollectionAndSegments_layers strategyOf 5
                  [seg_v1; seg_empty4; seg_empty; seg_tombstone] seg_broken []
                  key_k [] (ErrMsg "read: input/output error") H eq_refl eq_refl)).
Defined.


(** X9 on three segments whose first two net additions go over the
    largest [int]. *)
Lemma count_is_sum_witness :
  count (Some <$> [seg_adding (2 ^ 63 - 1); seg_adding 1; seg_adding (-1)])
  = Return (2 ^ 63 - 1).
Proof.
  assert (- 2 ^ 63
          <= netAdditions [seg_adding (2 ^ 63 - 1); seg_adding 1; seg_adding (-1)]
          < 2 ^ 63) as H by (vm_compute; split; [discriminate | reflexivity]).
  exact (count_is_sum [seg_adding (2 ^ 63 - 1); seg_adding 1; seg_adding (-1)] H).
Defined.

(** ** What the recovery keeps *)

Section RecoveryInvariants.
Context {value : Type}.
Context (segmentID : string -> string) (DeleteMarkerSuffix : string).
Implicit Types (st : recovery value).

Lemma recoverCompacted_step (name : string) st :
  match recoverCompacted segmentID name st with
  | Ok _ st' => stepKeeps st st' \/ (filepath_Ext name = ".tmp" /\ stepStores st st')
  | Fail _ _ => True
  | Crash p => filepath_Ext name = ".tmp" /\
               (length (rec_segments st) <= segmentIndex st)%nat
  end.
Proof.
  unfold recoverCompacted, stepKeeps, stepStores.
  destruct (decide (filepath_Ext name ≠ ".tmp")) as [|Hext]; [by left|].
  apply dec_stable in Hext.
  run_recovery; try done; try (by left); try (split; [done|lia]);
    right; (split; [done|]); (split; [done|]); (split; [done|]); eauto.
Qed.

Lemma recoverSegment_step (name : string) st :
  match recoverSegment DeleteMarkerSuffix name st with
  | Ok _ st' => stepKeeps st st' \/ (filepath_Ext name = ".db" /\ stepStores st st')
  | Fail _ _ => True
  | Crash p => filepath_Ext name = ".db" /\
               (length (rec_segments st) <= segmentIndex st)%nat
  end.
Proof.
  unfold recoverSegment, stepKeeps, stepStores.
  destruct (decide (filepath_Ext name = DeleteMarkerSuffix)) as [|_].
  { destruct (os_Remove _ _). by left. }
  destruct (decide (filepath_Ext name ≠ ".db")) as [|Hext]; [by left|].
  apply dec_stable in Hext.
  run_recovery; try done; try (by left); try (split; [done|lia]);
    right; (split; [done|]); (split; [done|]); (split; [done|]); eauto.
Qed.

Lemma countExt_cons (ext name : string) (l : list string) :
  countExt ext (name :: l)
  = ((if decide (filepath_Ext name = ext) then 1 else 0) + countExt ext l)%nat.
Proof.
  unfold countExt. destruct (decide _).
  - by rewrite filter_cons_True.
  - by rewrite filter_cons_False.
Qed.

(** An entry is counted for one of the two loops at most. *)
Lemma countExt_disjoint (l : list string) :
  (countExt ".tmp" l + countExt ".db" l <= length l)%nat.
Proof.
  induction l as [|name l IH]; [done|].
  rewrite !countExt_cons. cbn [length].
  destruct (decide (filepath_Ext name = ".tmp")) as [E|];
    destruct (decide (filepath_Ext name = ".db")); try lia.
  rewrite E in *. discriminate.
Qed.

Lemma boundToPosition_store st st' :
  stepStores st st' ->
  boundToPosition (take (segmentIndex st) (rec_segments st)) ->
  boundToPosition (take (segmentIndex st') (rec_segments st')).
Proof.
  intros (Hlt & -> & s & -> & Hs) Hb j slot Hj.
  rewrite take_S_insert in Hj by done.
  destruct (decide (j < segmentIndex st)%nat) as [Hlt'|Hge].
  - rewrite lookup_app_l in Hj by (rewrite length_take; lia). by apply Hb.
  - rewrite lookup_app_r in Hj by (rewrite length_take; lia).
    rewrite length_take, Nat.min_l in Hj by lia.
    destruct (j - segmentIndex st)%nat eqn:E; [|done].
    simpl in Hj. injection Hj as <-. exists s. split; [done|].
    rewrite Hs. f_equal. lia.
Qed.

Lemma step_room st st' (ext name : string) (tmps dbs tmps' dbs' : list string) :
  stepKeeps st st' \/ (filepath_Ext name = ext /\ stepStores st st') ->
  (filepath_Ext name = ext ->
   (segmentIndex st + countExt ".tmp" tmps + countExt ".db" dbs
    >= S (segmentIndex st + countExt ".tmp" tmps' + countExt ".db" dbs'))%nat) ->
  (countExt ".tmp" tmps' + countExt ".db" dbs'
   <= countExt ".tmp" tmps + countExt ".db" dbs)%nat ->
  roomFor st tmps dbs ->
  roomFor st' tmps' dbs' /\ length (rec_segments st') = length (rec_segments st).
Proof.
  intros Hstep Hext Hle [Hroom Hb]. destruct Hstep as [[Hi Hs]|[E Hst]].
  - split; [|by rewrite Hs]. split; [rewrite Hi, Hs; lia | by rewrite Hi, Hs].
  - specialize (Hext E). split.
    + split; [|by eapply boundToPosition_store].
      destruct Hst as (? & -> & s & -> & _). rewrite length_insert. lia.
    + destruct Hst as (? & _ & s & -> & _). by rewrite length_insert.
Qed.

Lemma forEach_recoverCompacted_room (tmps dbs : list string) st :
  roomFor st tmps dbs ->
  match forEach (recoverCompacted segmentID) tmps st with
  | Ok _ st' => roomFor st' [] dbs /\
                length (rec_segments st') = length (rec_segments st)
  | Fail _ _ => True
  | Crash _ => False
  end.
Proof.
  revert st. induction tmps as [|name tmps IH]; intros st Hroom; [done|].
  cbn [forEach]. unfold mbind, M_bind.
  pose proof (recoverCompacted_step name st) as Hstep.
  pose proof (countExt_cons ".tmp" name tmps) as Hc.
  destruct (recoverCompacted segmentID name st) as [[] st'|e st'|p]; [|done|].
  - destruct (step_room st st' ".tmp" name (name :: tmps) dbs tmps dbs Hstep)
      as [Hr Hl]; [intros E; rewrite decide_True in Hc by done; lia
                  | destruct (decide _); lia | done |].
    specialize (IH st' Hr).
    destruct (forEach _ tmps st') as [[] st''|?|?]; [|done..].
    destruct IH as [? ->]. done.
  - destruct Hstep as [Hext ?]. destruct Hroom as [Hroom _].
    rewrite decide_True in Hc by done. lia.
Qed.

Lemma forEach_recoverSegment_room (dbs : list string) st :
  roomFor st [] dbs ->
  match forEach (recoverSegment DeleteMarkerSuffix) dbs st with
  | Ok _ st' => roomFor st' [] [] /\
                length (rec_segments st') = length (rec_segments st)
  | Fail _ _ => True
  | Crash _ => False
  end.
Proof.
  revert st. induction dbs as [|name dbs IH]; intros st Hroom; [done|].
  cbn [forEach]. unfold mbind, M_bind.
  pose proof (recoverSegment_step name st) as Hstep.
  pose proof (countExt_cons ".db" name dbs) as Hc.
  destruct (recoverSegment DeleteMarkerSuffix name st) as [[] st'|e st'|p]; [|done|].
  - destruct (step_room st st' ".db" name [] (name :: dbs) [] dbs Hstep)
      as [Hr Hl]; [intros E; rewrite decide_True in Hc by done; lia
                  | destruct (decide _); lia | done |].
    specialize (IH st' Hr).
    destruct (forEach _ dbs st') as [[] st''|?|?]; [|done..].
    destruct IH as [? ->]. done.
  - destruct Hstep as [Hext ?]. destruct Hroom as [Hroom _].
    rewrite decide_True in Hc by done. lia.
Qed.

Lemma newSegmentGroup_room (w : world value) :
  match newSegmentGroup segmentID DeleteMarkerSuffix w with
  | Ok sg st =>
      boundToPosition (segments sg) /\
      (length (segments sg) <= size (files w))%nat /\
      sg_lastCompactionCall sg = now w /\ sg_lastCleanupCall sg = now w
  | Fail _ _ => True
  | Crash _ => False
  end.
Proof.
  unfold newSegmentGroup, os_ReadDir.
  destruct (faults w OpReadDir); [done|].
  set (list := merge_sort String.le (elements (dom (files w)))).
  assert (length list = size (files w)) as Hlen.
  { unfold list. rewrite merge_sort_Permutation.
    by rewrite <- size_dom. }
  set (st0 := Recovery _ _ _ _).
  assert (roomFor st0 list list) as Hroom.
  { split; [|by intros j slot Hj].
    cbn. rewrite length_replicate. pose proof (countExt_disjoint list). lia. }
  unfold mbind at 1, M_bind at 1.
  pose proof (forEach_recoverCompacted_room list list st0 Hroom) as H1.
  destruct (forEach (recoverCompacted segmentID) list st0) as [[] st1|e st1|p];
    [|done..].
  destruct H1 as [H1 Hl1].
  unfold mbind at 1, M_bind at 1.
  pose proof (forEach_recoverSegment_room list st1 H1) as H2.
  destruct (forEach (recoverSegment DeleteMarkerSuffix) list st1) as [[] st2|e st2|p];
    [|done..].
  destruct H2 as [[H2 Hb] Hl2].
  unfold mbind, M_bind, get_state, newSegmentCleaner, mret, M_ret.
  destruct (faults _ _); [done|]. cbn.
  repeat split; try done.
  rewrite length_take, Hl2, Hl1. subst st0. cbn [rec_segments].
  rewrite length_replicate. lia.
Qed.


(** X11. In the group [newSegmentGroup] returns no slot is [nil], the
    predicate of each segment is the one made for the index the segment
    is at, there are no more segments than entries in the directory,
    and both instants of the maintenance tick are the time of the
    construction. *)
Theorem newSegmentGroup_bound_to_position (w : world value)
  (sg : @SegmentGroup value) st :
  newSegmentGroup segmentID DeleteMarkerSuffix w = Ok sg st ->
  boundToPosition (segments sg) /\
  (length (segments sg) <= size (files w))%nat /\
  sg_lastCompactionCall sg = now w /\ sg_lastCleanupCall sg = now w.
Proof.
  intros H. pose proof (newSegmentGroup_room w) as Hroom. by rewrite H in Hroom.
Qed.

End RecoveryInvariants.

(** ** Recovery: clean start, leftovers and published outputs *)

Section RecoveryEdges.
Context {value : Type}.
Context (segmentID : string -> string) (DeleteMarkerSuffix : string).
Implicit Types (st : recovery value).





(** X13. An entry with the delete-marker extension never makes the
    recovery fail: the second loop removes the file and goes on, with
    the sequence as it was, and goes on as well, the file staying, when
    the removal fails. *)
Theorem recoverSegment_delete_marker st (name : string) :
  filepath_Ext name = DeleteMarkerSuffix ->
  exists w' : world value,
    recoverSegment DeleteMarkerSuffix name st
    = Ok tt (Recovery w' (rec_segments st) (segmentIndex st)
               (segmentsAlreadyRecoveredFromCompaction st)) /\
    trace w' = trace (rec_world st) ++ [OpRemove name] /\
    files w' = match faults (rec_world st) (OpRemove name) with
               | None => delete name (files (rec_world st))
               | Some _ => files (rec_world st)
               end.
Proof.
  intros Hext. unfold recoverSegment. rewrite decide_True by done.
  unfold os_Remove.
  destruct (faults (rec_world st) (OpRemove name)) as [e|]; [by eexists|].
  destruct (files (rec_world st) !! name) as [f|] eqn:E; eexists;
    (split; [reflexivity|]); split; try done.
  cbn. by rewrite delete_id.
Qed.

Lemma strings_Split_nonempty (s : string) (sep : ascii) : strings_Split s sep <> [].
Proof.
  induction s as [|c s IH]; simpl; [done|].
  destruct (decide (c = sep)); [done|].
  by destruct (strings_Split s sep).
Qed.

(** X14. In the first loop, an entry [.db.tmp] whose stem does not give
    two IDs is either given three IDs or more and left alone, without
    any call on the directory, or given one ID and removed, the
    recovery failing when the removal fails; no segment is opened
    for it in either case. *)
Theorem recoverCompacted_leftovers st (name : string) :
  filepath_Ext name = ".tmp" ->
  filepath_Ext (strings_TrimSuffix name ".tmp") = ".db" ->
  length (strings_Split (segmentID (strings_TrimSuffix name ".tmp")) "_") <> 2%nat ->
  let w := rec_world st in
  let ids := strings_Split (segmentID (strings_TrimSuffix name ".tmp")) "_" in
  (3 <= length ids)%nat /\ recoverCompacted segmentID name st = Ok tt st \/
  length ids = 1%nat /\
  match faults w (OpRemove name), files w !! name with
  | Some e, _ =>
      recoverCompacted segmentID name st
      = Fail (ErrWrap "delete partially cleaned segment" e)
          (Recovery (logged (OpRemove name) w) (rec_segments st) (segmentIndex st)
             (segmentsAlreadyRecoveredFromCompaction st))
  | None, None =>
      exists e, recoverCompacted segmentID name st
      = Fail (ErrWrap "delete partially cleaned segment" e)
          (Recovery (logged (OpRemove name) w) (rec_segments st) (segmentIndex st)
             (segmentsAlreadyRecoveredFromCompaction st))
  | None, Some _ =>
      recoverCompacted segmentID name st
      = Ok tt (Recovery
                 (World (delete name (files w)) (now w) (faults w)
                    (trace w ++ [OpRemove name]))
                 (rec_segments st) (segmentIndex st)
                 (segmentsAlreadyRecoveredFromCompaction st))
  end.
Proof.
  intros Hext Hext' Hlen w ids.
  unfold recoverCompacted. rewrite Hext, Hext'.
  rewrite (decide_False (P:=(".tmp" ≠ ".tmp"))) by (intros H; by apply H).
  rewrite (decide_False (P:=(".db" ≠ ".db"))) by (intros H; by apply H).
  fold ids. fold ids in Hlen.
  destruct (decide (length ids = 1%nat)) as [H1|H1].
  - right. split; [done|]. unfold try_io, unit_io, os_Remove. fold w.
    destruct (faults w (OpRemove name)); [done|].
    destruct (files w !! name); [done|]. by eexists.
  - left. rewrite decide_True by done. split; [|done].
    pose proof (strings_Split_nonempty
                  (segmentID (strings_TrimSuffix name ".tmp")) "_") as Hne.
    fold ids in Hne. destruct ids as [|? [|? [|? ?]]]; simpl in *; try done; lia.
Qed.



End RecoveryEdges.

(** ** The maintenance tick over time *)

Section MaintenanceExtras.
Context {W : Type}.
Context (time_Now : W -> Z).
Context (compactOnce cleanupOnce : W -> (bool * option error) * W).

Local Abbreviation tick := (compactOrCleanup time_Now compactOnce cleanupOnce).

(** X16. Cleanup is not starved by compaction: after a tick that ran
    compaction first and found work (so that cleanup was not run), the
    next tick that comes more than 12 hours after the last cleanup call
    runs cleanup first, whatever compaction would find. *)
Theorem cleanup_not_starved (m : maintenance W) (later : W) :
  cleanupFirst time_Now m = false ->
  (compactOnce (m_world m)).1.1 = true ->
  lastCleanupCall m < time_Now (m_world m) ->
  time_Now later - lastCleanupCall m > 12 * time_Hour ->
  let m1 := (tick m).2 in
  let m2 := Maintenance (lastCleanupCall m1) (lastCompactionCall m1) later (calls m1) in
  calls m1 = calls m ++ [Compaction] /\
  lastCleanupCall m1 = lastCleanupCall m /\
  exists rest, calls (tick m2).2 = calls m ++ [Compaction; Cleanup] ++ rest.
Proof.
  intros Hfirst Hdone Hlt Hold m1 m2.
  assert (m1 = Maintenance (lastCleanupCall m) (time_Now (m_world m))
                 (compactOnce (m_world m)).2 (calls m ++ [Compaction])) as Hm1.
  { unfold m1, compactOrCleanup. rewrite Hfirst. unfold compact.
    destruct (compactOnce (m_world m)) as [[b e] w']. simpl in *. by subst b. }
  clearbody m1. subst m1. cbn [calls lastCleanupCall lastCompactionCall] in *.
  split; [done|]. split; [done|].
  assert (cleanupFirst time_Now m2 = true) as Hf2.
  { unfold cleanupFirst, time_Before, forceCleanupInterval. subst m2. cbn.
    rewrite andb_true_iff, !bool_decide_eq_true. split; [|done].
    apply time_Sub_gt; [|lia]. unfold minDuration, maxDuration, time_Hour.
    change (2 ^ 63) with 9223372036854775808. lia. }
  unfold compactOrCleanup. rewrite Hf2. unfold cleanup, compact. subst m2. cbn.
  destruct (cleanupOnce later) as [[[] e] w']; cbn.
  - exists []. by rewrite <- app_assoc.
  - destruct (compactOnce w') as [[b' e'] w'']. cbn.
    exists [Compaction]. by rewrite <- !app_assoc.
Qed.

End MaintenanceExtras.

(** ** Append, reads and shutdown together *)

Section CompositionExtras.
Context {value : Type}.
Implicit Types (s : segment value) (key : bytes).


Lemma getFrom_no_bad_slot (l : list (option (segment value))) key (i : nat) :
  Forall is_Some l -> (i < length l)%nat ->
  getFrom l key i <> Panic IndexOutOfRange /\ getFrom l key i <> Panic NilDereference.
Proof.
  intros Hl. induction i as [|i IH]; intros Hi; simpl.
  - destruct (l !! 0%nat) as [[s|]|] eqn:E.
    + destruct (segment_get s key) as [v [e|]]; [|done].
      destruct (errors_Is e NotFound); [done|]. by destruct (errors_Is e Deleted).
    + rewrite Forall_lookup in Hl. by destruct (Hl _ _ E).
    + apply lookup_ge_None in E. lia.
  - destruct (l !! S i) as [[s|]|] eqn:E.
    + destruct (segment_get s key) as [v [e|]]; [|done].
      destruct (errors_Is e NotFound); [apply IH; lia|].
      by destruct (errors_Is e Deleted).
    + rewrite Forall_lookup in Hl. by destruct (Hl _ _ E).
    + apply lookup_ge_None in E. lia.
Qed.

Lemma boundToPosition_is_Some (l : list (option (segment value))) :
  boundToPosition l -> Forall is_Some l.
Proof.
  intros Hb. apply Forall_lookup. intros j slot Hj.
  destruct (Hb j slot Hj) as (s & -> & _). by eexists.
Qed.

(** X18. [add] keeps the sequence bound to position: when every
    segment holds the predicate made for its index, so does every
    segment after an [add] that returns no error. *)
Theorem add_keeps_bound (segments segments' : list (option (segment value)))
  (name : string) (w w' : world value) :
  boundToPosition segments ->
  add segments name w = (None, segments', w') ->
  boundToPosition segments'.
Proof.
  intros Hb Hadd. unfold add, newSegment in Hadd.
  destruct (faults w _); [discriminate|].
  destruct (files w !! name) as [f|]; [|discriminate].
  destruct (file_open f); [discriminate|].
  injection Hadd as <- <-. intros j slot Hj.
  destruct (decide (j < length segments)%nat) as [Hlt|Hge].
  - rewrite lookup_app_l in Hj by done. by apply Hb.
  - rewrite lookup_app_r in Hj by lia.
    destruct (j - length segments)%nat eqn:E; [|done].
    simpl in Hj. injection Hj as <-. eexists. split; [done|]. simpl. f_equal. lia.
Qed.

(** X19. On a sequence bound to position, [get] and the predicate of
    any of its segments never index past the sequence nor meet a [nil]
    slot: they return, or panic on an error of a segment that is
    neither [NotFound] nor [Deleted]. *)
Theorem bound_sequence_reads (l : list (option (segment value))) (j : nat) s key :
  boundToPosition l ->
  l !! j = Some (Some s) ->
  noBadSlot (get l key) /\
  noBadSlot (callExistsOnLower l (existsOnLower s) key).
Proof.
  intros Hb Hj.
  pose proof (boundToPosition_is_Some l Hb) as Hsome.
  assert (forall i : nat, (i < length l)%nat -> noBadSlot (getFrom l key i)) as Hwalk.
  { intros i Hi. destruct (getFrom_no_bad_slot l key i Hsome Hi) as [H1 H2].
    destruct (getFrom l key i) as [|[]]; done. }
  split.
  - rewrite get_unfold. destruct l as [|x l'] eqn:E; [done|]. rewrite <- E in *.
    apply Hwalk. subst; simpl; lia.
  - destruct (Hb j _ Hj) as (s' & [= <-] & Hfn). rewrite Hfn.
    cbn [callExistsOnLower]. unfold makeExistsOnLower.
    destruct (decide (j = 0%nat)); [done|].
    unfold getWithUpperSegmentBoundary.
    destruct (decide _) as [_|?]; [|lia].
    apply lookup_lt_Some in Hj.
    pose proof (Hwalk (Z.to_nat (Z.of_nat j - 1))) as H.
    destruct (getFrom l key (Z.to_nat (Z.of_nat j - 1))) as [[v [e|]]|p]; try done.
    apply H. lia.
Qed.

Lemma shutdownFrom_returns (rng : list (option (segment value))) :
  Forall is_Some rng ->
  forall (i : nat) (segs : list (option (segment value))) (closed : list (segment value)),
  exists err segs' more,
    shutdownFrom i rng segs closed = Return (err, segs', closed ++ more) /\
    (Some <$> more) `prefix_of` rng /\
    (err = None -> segs' = [] /\ Some <$> more = rng).
Proof.
  induction 1 as [|slot rng [s ->] _ IH]; intros i segs closed; simpl.
  - exists None, [], []. by rewrite app_nil_r.
  - destruct (segment_close s) as [e|].
    + exists (Some e), segs, []. rewrite app_nil_r.
      split; [done|]. split; [apply prefix_nil|done].
    + destruct (IH (S i) (<[i := None]> segs) (closed ++ [s]))
        as (err & segs' & more & -> & Hpre & Hall).
      exists err, segs', (s :: more). rewrite <- app_assoc.
      split; [done|]. split; [by apply prefix_cons|].
      intros Herr. destruct (Hall Herr) as [-> <-]. done.
Qed.

(** X20. On a sequence bound to position [shutdown] returns: the
    segments it has closed are the first ones of the sequence, in
    order, and when it returns no error (the cycle manager and the
    cleaner having answered none) they are all of them and the sequence
    is [nil]. *)
Theorem shutdown_of_bound_sequence (env : shutdownEnv)
  (l : list (option (segment value))) :
  boundToPosition l ->
  exists err l' closed,
    shutdown env l = Return (err, l', closed) /\
    (Some <$> closed) `prefix_of` l /\
    (unregister env = None -> segmentCleaner_close env = None -> err = None ->
     l' = [] /\ Some <$> closed = l).
Proof.
  intros Hb. pose proof (boundToPosition_is_Some l Hb) as Hsome.
  unfold shutdown.
  destruct (unregister env).
  { eexists _, _, _. split; [done|]. split; [apply prefix_nil|done]. }
  destruct (segmentCleaner_close env).
  { eexists _, _, _. split; [done|]. split; [apply prefix_nil|done]. }
  destruct (shutdownFrom_returns l Hsome 0%nat l [])
    as (err & l' & closed & Hrun & Hpre & Hall).
  exists err, l', closed. split; [done|]. split; [done|]. auto.
Qed.

End CompositionExtras.

(** ** The further properties on directories and sequences at hand *)

(** X11 on a directory with a segment, the output of a compaction
    whose right input is still there, and another segment. *)
Lemma newSegmentGroup_bound_to_position_witness :
  match newSegmentGroup segmentID_spec ".deleteme"
          (directoryOf ["segment-02.db"; "segment-01_02.db.tmp"; "segment-03.db"]) with
  | Ok sg st => boundToPosition (segments sg) /\ (length (segments sg) <= 3)%nat
  | _ => False
  end.
Proof.
  destruct (newSegmentGroup segmentID_spec ".deleteme"
              (directoryOf ["segment-02.db"; "segment-01_02.db.tmp"; "segment-03.db"]))
    as [sg st|e st|p] eqn:E.
  - destruct (newSegmentGroup_bound_to_position segmentID_spec ".deleteme" _ sg st E)
      as (H1 & H2 & _).
    exact (conj H1 H2).
  - vm_compute in E. discriminate E.
  - vm_compute in E. discriminate E.
Defined.


(** X13 on the file marked for deletion of [world_leftovers]. *)
Lemma recoverSegment_delete_marker_witness :
  exists w' : world string,
    recoverSegment ".deleteme" "segment-05.db.deleteme"
      (Recovery world_leftovers [None; None] 0 ∅)
    = Ok tt (Recovery w' [None; None] 0 ∅) /\
    files w' = delete "segment-05.db.deleteme" (files world_leftovers).
Proof.
  destruct (recoverSegment_delete_marker ".deleteme"
              (Recovery world_leftovers [None; None] 0 ∅) "segment-05.db.deleteme"
              eq_refl) as (w' & Hrun & _ & Hfiles).
  exists w'. exact (conj Hrun Hfiles).
Defined.

(** X14 on the leftover of a cleanup of [world_leftovers]. *)
Lemma recoverCompacted_leftovers_witness :
  recoverCompacted segmentID_spec "segment-07.db.tmp"
    (Recovery world_leftovers [None; None] 0 ∅)
  = Ok tt (Recovery
             (World (delete "segment-07.db.tmp" (files world_leftovers)) 100
                (faults world_leftovers) [OpRemove "segment-07.db.tmp"])
             [None; None] 0 ∅).
Proof.
  destruct (recoverCompacted_leftovers segmentID_spec
              (Recovery world_leftovers [None; None] 0 ∅) "segment-07.db.tmp"
              eq_refl eq_refl ltac:(discriminate)) as [[H3 _]|[_ H]].
  - simpl in H3. lia.
  - exact H.
Defined.


(** X16 with a compaction that always finds work, thirteen hours after
    the last cleanup call. *)
Lemma cleanup_not_starved_witness :
  exists rest,
    calls (compactOrCleanup (fun w => w) busyPass idlePass
             (Maintenance 0 5 (13 * time_Hour) [Compaction])).2
    = [Compaction; Cleanup] ++ rest.
Proof.
  destruct (cleanup_not_starved (fun w => w) busyPass idlePass
              (Maintenance 0 0 5 []) (13 * time_Hour)
              eq_refl eq_refl eq_refl eq_refl) as (_ & _ & rest & H).
  exists rest. exact H.
Defined.

(** X18 on a group of one segment. *)
Lemma add_keeps_bound_witness :
  boundToPosition
    [Some seg_v1;
     Some (Segment "segment-05.db" (ExistsOnLowerOf 1) (tableWith key_k val_v1 []))].
Proof.
  assert (boundToPosition [Some seg_v1]) as Hb.
  { intros [|j] slot Hj; simpl in Hj; [|discriminate Hj].
    injection Hj as <-. by exists seg_v1. }
  assert (add [Some seg_v1] "segment-05.db" world_05
          = (None,
             [Some seg_v1;
              Some (Segment "segment-05.db" (ExistsOnLowerOf 1) (tableWith key_k val_v1 []))],
             logged (OpNewSegment "segment-05.db" true) world_05)) as H
    by (vm_compute; reflexivity).
  exact (add_keeps_bound _ _ _ _ _ Hb H).
Defined.

(** X19 and X20 on a value and a tombstone over it. *)
Lemma bound_sequence_reads_witness :
  noBadSlot (get [Some seg_v1; Some seg_tombstone] key_k) /\
  noBadSlot (callExistsOnLower [Some seg_v1; Some seg_tombstone]
               (existsOnLower seg_tombstone) key_k).
Proof.
  assert (boundToPosition [Some seg_v1; Some seg_tombstone]) as Hb.
  { intros [|[|j]] slot Hj; simpl in Hj; [| |discriminate Hj];
      injection Hj as <-; by eexists. }
  exact (bound_sequence_reads [Some seg_v1; Some seg_tombstone] 1 seg_tombstone key_k
           Hb eq_refl).
Defined.

Lemma shutdown_of_bound_sequence_witness :
  exists err l' closed,
    shutdown (ShutdownEnv None None None) [Some seg_v1; Some seg_tombstone]
    = Return (err, l', closed) /\
    (Some <$> closed) `prefix_of` [Some seg_v1; Some seg_tombstone].
Proof.
  assert (boundToPosition [Some seg_v1; Some seg_tombstone]) as Hb.
  { intros [|[|j]] slot Hj; simpl in Hj; [| |discriminate Hj];
      injection Hj as <-; by eexists. }
  destruct (shutdown_of_bound_sequence (ShutdownEnv None None None)
              [Some seg_v1; Some seg_tombstone] Hb)
    as (err & l' & closed & Hrun & Hpre & _).
  exists err, l', closed. exact (conj Hrun Hpre).
Defined.
